(** * File deduplicator (dedup.c++): model and verified properties

    The program walks a directory, buckets the regular files by size,
    hashes the members of every bucket with two or more files, reports the
    groups of equal digest and optionally deletes or hard-links all but the
    oldest member of each group.

    The model follows the source function by function:
    [generate_file_hash], [find_files], [find_duplicates],
    [handle_duplicates], [main].  C++ exceptions are values of [result],
    [std::cout]/[std::cerr] are a list of [event]s, the file system is a
    finite map from paths to what they name (a file or a symbolic link), and
    the implementation-defined parts of the C++ library the program relies
    on ([std::hash], [std::sort], the iteration order of
    [std::unordered_map], the texts of [what()]) are interfaces. *)

From stdpp Require Import gmap strings list fin_maps pretty sorting.
From Stdlib Require Import ZArith Lia Ascii.

#[local] Set Warnings "-clear-no-such-hyp,-register-all".

Local Open Scope string_scope.
Local Open Scope list_scope.
Local Open Scope nat_scope.

(** ** Exceptions *)

(** The two exception classes the program meets: [fs::filesystem_error]
    (thrown by the [std::filesystem] calls) and [std::runtime_error] (thrown
    by [generate_file_hash]).  Both derive from [std::exception]. *)
Inductive exn : Type :=
| filesystem_error (msg : string)
| runtime_error (msg : string).

Definition what (e : exn) : string :=
  match e with
  | filesystem_error msg => msg
  | runtime_error msg => msg
  end.

Inductive result (A : Type) : Type :=
| Ok (a : A)
| Throw (e : exn).
Arguments Ok {A} a.
Arguments Throw {A} e.

Definition is_throw {A} (r : result A) : Prop :=
  match r with Ok _ => False | Throw _ => True end.

(** Outcome of a [std::filesystem] query: its value, or the [what()] of the
    [fs::filesystem_error] it throws. *)
Inductive fs_result (A : Type) : Type :=
| FsOk (a : A)
| FsError (msg : string).
Arguments FsOk {A} a.
Arguments FsError {A} msg.

Definition fs_lift {A} (r : fs_result A) : result A :=
  match r with
  | FsOk a => Ok a
  | FsError msg => Throw (filesystem_error msg)
  end.

(** ** Data *)

(** [struct FileInfo].  The fields are [path], [size] and [hash] in the
    source; they carry a prefix here because [size] is the name of the
    cardinality function of finite maps. *)
Record FileInfo : Type := mkFileInfo {
  fi_path : string;
  fi_size : N;
  fi_hash : string
}.

Global Instance FileInfo_eq_dec : EqDecision FileInfo.
Proof. solve_decision. Defined.

(** A node of the file system, as far as the program can observe it: the
    bytes a read returns ([None] when the file cannot be opened), the answer
    of [fs::last_write_time] (a tick count, or the exception it throws) and
    the inode, which two hard links to the same file share. *)
Record node : Type := mkNode {
  nd_ino : N;
  nd_content : option string;
  nd_mtime : fs_result Z
}.

(** What a path names: a file, of which the path is one hard link, or a
    symbolic link.  The target of a symbolic link is the path it leads to;
    a relative target is understood from the directory the link lies in, and
    a hard link of such a link in another directory is beyond the model. *)
Inductive dentry : Type :=
| Regular (nd : node)
| Symlink (target : string).

Abbreviation filesystem := (gmap string dentry).

(** The error conditions the file system itself meets in the calls of the
    program, and those calls.  What [what()] says of them is up to the
    library. *)
Inductive errc : Type :=
| no_such_file_or_directory
| file_exists
| too_many_symbolic_link_levels.

Inductive fs_call : Type :=
| call_last_write_time (p : string)
| call_create_hard_link (target link : string).

(** The file a path leads to once symbolic links are followed, as
    [stat(2)] does for [std::ifstream], [is_regular_file] and
    [fs::last_write_time].  The kernel follows 40 links and no more. *)
Fixpoint follow (fuel : nat) (fs : filesystem) (p : string) : errc + node :=
  match fs !! p with
  | None => inl no_such_file_or_directory
  | Some (Regular nd) => inr nd
  | Some (Symlink target) =>
      match fuel with
      | 0 => inl too_many_symbolic_link_levels
      | S fuel => follow fuel fs target
      end
  end.

Definition resolve (fs : filesystem) (p : string) : errc + node :=
  follow 40 fs p.

(** What the program prints.  [stream_of] tells [std::cout] from
    [std::cerr]. *)
Inductive event : Type :=
| EvUsage (prog : string)
| EvInvalidDirectory (dir : string)
| EvScanning (dir : string)
| EvFoundFiles (n : nat)
| EvLooking
| EvNoDuplicates
| EvFoundGroups (n : nat)
| EvErrorAccessing (p : string)
| EvFilesystemError (msg : string)
| EvErrorProcessing (p : string) (msg : string)
| EvGroup (n : nat) (hash : string)
| EvOriginal (p : string)
| EvDuplicate (p : string)
| EvDeleted (p : string)
| EvDeleteFailed (msg : string)
| EvCreatedHardlink (p : string)
| EvHardlinkFailed (msg : string)
| EvError (msg : string).

Inductive stream : Type := Cout | Cerr.

Definition stream_of (e : event) : stream :=
  match e with
  | EvInvalidDirectory _ | EvErrorAccessing _ | EvFilesystemError _
  | EvErrorProcessing _ _ | EvDeleteFailed _ | EvHardlinkFailed _
  | EvError _ => Cerr
  | _ => Cout
  end.

(** ** The C++ library *)

(** [std::hash<std::string>]: some function from byte strings to [size_t]. *)
Class StdHash := std_hash : string → N.

(** Iteration over a [std::unordered_map] visits every entry once, in an
    order the standard leaves open. *)
Class UnorderedIter : Type := {
  iterate : ∀ {K} `{Countable K} {V}, gmap K V → list (K * V);
  iterate_perm : ∀ K `{Countable K} V (m : gmap K V),
    iterate m ≡ₚ map_to_list m
}.

(** [m[k].push_back(v)] on a map of vectors: a missing key starts from the
    empty vector. *)
Definition push_back {K} `{Countable K} {V}
    (m : gmap K (list V)) (k : K) (v : V) : gmap K (list V) :=
  <[k := default [] (m !! k) ++ [v]]> m.

(** ** generate_file_hash *)

Definition read_file (fs : filesystem) (p : string) : option string :=
  match resolve fs p with
  | inr nd => nd_content nd
  | inl _ => None
  end.

Definition digest `{StdHash} (content : string) : string :=
  pretty (N.of_nat (String.length content)) +:+ "_" +:+ pretty (std_hash content).

Definition generate_file_hash `{StdHash} (fs : filesystem) (file_path : string)
    : result string :=
  match read_file fs file_path with
  | None => Throw (runtime_error ("Cannot open file: " +:+ file_path))
  | Some content => Ok (digest content)
  end.

(** ** find_duplicates *)

(** First loop: [size_groups[file.size].push_back(file)]. *)
Definition group_by_size (files : list FileInfo) : gmap N (list FileInfo) :=
  fold_left (λ m file, push_back m (fi_size file) file) files ∅.

(** Body of the loop over one size bucket: hash the file and file it under
    its digest, or report the failure and go on. *)
Definition hash_step `{StdHash} (fs : filesystem) (size : N)
    (acc : gmap string (list FileInfo) * list event) (file : FileInfo)
    : gmap string (list FileInfo) * list event :=
  match generate_file_hash fs (fi_path file) with
  | Ok hash =>
      (push_back acc.1 hash (mkFileInfo (fi_path file) size hash), acc.2)
  | Throw e =>
      (acc.1, acc.2 ++ [EvErrorProcessing (fi_path file) (what e)])
  end.

Definition hash_bucket `{StdHash} (fs : filesystem) (size : N)
    (group : list FileInfo) : gmap string (list FileInfo) * list event :=
  fold_left (hash_step fs size) group (∅, []).

(** [duplicates[hash] = files] for every digest with more than one file. *)
Definition keep_step (duplicates : gmap string (list FileInfo))
    (entry : string * list FileInfo) : gmap string (list FileInfo) :=
  if decide (1 < length entry.2) then <[entry.1 := entry.2]> duplicates
  else duplicates.

(** Body of the loop over [size_groups]. *)
Definition bucket_step `{StdHash} `{UnorderedIter} (fs : filesystem)
    (acc : gmap string (list FileInfo) * list event)
    (entry : N * list FileInfo) : gmap string (list FileInfo) * list event :=
  if decide (1 < length entry.2) then
    let hashed := hash_bucket fs entry.1 entry.2 in
    (fold_left keep_step (iterate hashed.1) acc.1, acc.2 ++ hashed.2)
  else acc.

Definition find_duplicates `{StdHash} `{UnorderedIter} (fs : filesystem)
    (files : list FileInfo) : gmap string (list FileInfo) * list event :=
  fold_left (bucket_step fs) (iterate (group_by_size files)) (∅, []).

(** ** find_files *)

(** The directory tree as [fs::recursive_directory_iterator] sees it.  An
    entry that is not a directory answers [is_regular_file()] and
    [file_size()]; a directory is yielded like any entry and opened when the
    iterator is incremented past it, which throws when it cannot be read. *)
Inductive dirent : Type :=
| File (p : string) (is_regular_file : fs_result bool) (file_size : fs_result N)
| Directory (p : string) (children : fs_result (list dirent)).

(** One turn of the range-for loop and the increment that follows it.  The
    second component is the exception that leaves the loop, if any. *)
Fixpoint visit (entry : dirent) (acc : list FileInfo * list event)
    : (list FileInfo * list event) * option string :=
  match entry with
  | File p is_regular_file file_size =>
      match is_regular_file with
      | FsError msg => (acc, Some msg)
      | FsOk false => (acc, None)
      | FsOk true =>
          match file_size with
          | FsOk size => ((acc.1 ++ [mkFileInfo p size ""], acc.2), None)
          | FsError _ => ((acc.1, acc.2 ++ [EvErrorAccessing p]), None)
          end
      end
  | Directory p children =>
      match children with
      | FsError msg => (acc, Some msg)
      | FsOk entries =>
          (fix visit_all (entries : list dirent) acc :=
             match entries with
             | [] => (acc, None)
             | entry :: entries =>
                 match visit entry acc with
                 | (acc, None) => visit_all entries acc
                 | aborted => aborted
                 end
             end) entries acc
      end
  end.

Fixpoint visit_all (entries : list dirent) (acc : list FileInfo * list event)
    : (list FileInfo * list event) * option string :=
  match entries with
  | [] => (acc, None)
  | entry :: entries =>
      match visit entry acc with
      | (acc, None) => visit_all entries acc
      | aborted => aborted
      end
  end.

(** [fs::file_type], as far as [fs::exists] and [fs::is_directory] look. *)
Inductive file_type : Type :=
| ft_not_found
| ft_regular
| ft_directory
| ft_other.

(** The part of the environment the program cannot change: what [fs::status]
    says about the root argument (it throws when the status cannot be read,
    "not found" apart), the tree below a directory, the paths on which
    [fs::remove] and [fs::create_hard_link] are refused, and the [what()] of
    the [fs::filesystem_error] a call throws for an error condition. *)
Record World : Type := mkWorld {
  w_status : string → fs_result file_type;
  w_tree : string → fs_result (list dirent);
  w_remove_error : string → option string;
  w_link_error : string → string → option string;
  w_what : fs_call → errc → string
}.

Definition find_files (w : World) (directory : string)
    : list FileInfo * list event :=
  match visit (Directory directory (w_tree w directory)) ([], []) with
  | (acc, None) => acc
  | (acc, Some msg) => (acc.1, acc.2 ++ [EvFilesystemError msg])
  end.

(** ** State and exceptions *)

Record state : Type := mkState {
  st_fs : filesystem;
  st_out : list event
}.

Definition M (A : Type) : Type := state → result A * state.

Definition ret {A} (a : A) : M A := λ st, (Ok a, st).

Definition bind {A B} (m : M A) (k : A → M B) : M B :=
  λ st, match m st with
        | (Ok a, st') => k a st'
        | (Throw e, st') => (Throw e, st')
        end.

Notation "x <- m ;; k" := (bind m (λ x, k))
  (at level 100, m at next level, right associativity).
Notation "m ;; k" := (bind m (λ _, k))
  (at level 100, right associativity).

Definition emit (ev : event) : M unit :=
  λ st, (Ok tt, mkState (st_fs st) (st_out st ++ [ev])).

Definition emit_all (evs : list event) : M unit :=
  λ st, (Ok tt, mkState (st_fs st) (st_out st ++ evs)).

Definition get_fs : M filesystem := λ st, (Ok (st_fs st), st).

Definition lift_result {A} (r : result A) : M A := λ st, (r, st).

(** [try { m } catch (const fs::filesystem_error& e) { h (e.what()) }]:
    any other exception passes through. *)
Definition catch_filesystem_error {A} (m : M A) (h : string → M A) : M A :=
  λ st, match m st with
        | (Throw (filesystem_error msg), st') => h msg st'
        | r => r
        end.

Fixpoint for_each {A} (body : A → M unit) (l : list A) : M unit :=
  match l with
  | [] => ret tt
  | x :: l => body x ;; for_each body l
  end.

(** ** File-system calls of handle_duplicates *)

(** [fs::last_write_time(p)] follows symbolic links. *)
Definition last_write_time (w : World) (fs : filesystem) (p : string) : result Z :=
  match resolve fs p with
  | inl code => Throw (filesystem_error (w_what w (call_last_write_time p) code))
  | inr nd => fs_lift (nd_mtime nd)
  end.

(** [fs::remove(p)]: [true] when a name was removed, [false] when there was
    none; throws when the removal is refused.  It removes the name [p]
    itself: of a symbolic link the link, not the file it leads to; and a
    symbolic link that leads to [p] leads nowhere afterwards. *)
Definition fs_remove (w : World) (p : string) : M bool :=
  λ st, match w_remove_error w p with
        | Some msg => (Throw (filesystem_error msg), st)
        | None =>
            (Ok (bool_decide (is_Some (st_fs st !! p))),
             mkState (delete p (st_fs st)) (st_out st))
        end.

(** [fs::create_hard_link(target, link)]: the new path names what the
    target names, as [link(2)] has it: the same file, or, for a symbolic
    link, the link itself.  It throws when refused, when the target is
    missing or when the new path is taken. *)
Definition create_hard_link (w : World) (target link : string) : M unit :=
  λ st, match w_link_error w target link with
        | Some msg => (Throw (filesystem_error msg), st)
        | None =>
            match st_fs st !! target, st_fs st !! link with
            | Some entry, None =>
                (Ok tt, mkState (<[link := entry]> (st_fs st)) (st_out st))
            | None, _ =>
                (Throw (filesystem_error
                          (w_what w (call_create_hard_link target link)
                             no_such_file_or_directory)), st)
            | Some _, Some _ =>
                (Throw (filesystem_error
                          (w_what w (call_create_hard_link target link)
                             file_exists)), st)
            end
        end.

(** ** std::sort *)

(** [std::sort] on a vector of paths with a comparison that may throw:
    some function of the comparison and the range. *)
Class StdSort := std_sort :
  (string → string → result bool) → list string → result (list string).

(** What the program may rely on.  With a comparison that answers by a key
    on the elements of the range, the result is the range rearranged in
    non-descending order; the order of elements that compare equal is not
    promised.  An exception of the comparison leaves [std::sort], and in a
    range of two or more every element is compared at least once. *)
Class StdSortSpec (S : StdSort) : Prop := {
  std_sort_sorts : ∀ (key : string → Z) comp l,
    (∀ a b, a ∈ l → b ∈ l → comp a b = Ok (bool_decide (key a < key b)%Z)) →
    ∃ l', std_sort comp l = Ok l' ∧ l' ≡ₚ l ∧
          StronglySorted (λ a b, (key a ≤ key b)%Z) l';
  std_sort_throws : ∀ comp l x,
    x ∈ l → 1 < length l →
    (∀ y, y ∈ l → is_throw (comp x y) ∧ is_throw (comp y x)) →
    is_throw (std_sort comp l)
}.

(** ** handle_duplicates *)

(** The lambda handed to [std::sort]. *)
Definition mtime_less (w : World) (fs : filesystem) (a b : string) : result bool :=
  match last_write_time w fs a with
  | Throw e => Throw e
  | Ok ta =>
      match last_write_time w fs b with
      | Throw e => Throw e
      | Ok tb => Ok (bool_decide (ta < tb)%Z)
      end
  end.

(** Body of the loop over [sorted_files.begin() + 1 .. end()]. *)
Definition process_duplicate (w : World) (action : string)
    (original it : string) : M unit :=
  emit (EvDuplicate it) ;;
  if decide (action = "--delete") then
    catch_filesystem_error
      (fs_remove w it ;; emit (EvDeleted it))
      (λ msg, emit (EvDeleteFailed msg))
  else if decide (action = "--hardlink") then
    catch_filesystem_error
      (fs_remove w it ;; create_hard_link w original it ;;
       emit (EvCreatedHardlink it))
      (λ msg, emit (EvHardlinkFailed msg))
  else ret tt.

(** Body of the loop over [duplicates].  [front()] of an empty vector is
    undefined in C++; [find_duplicates] stores no such group, and the model
    does nothing there. *)
Definition handle_group `{StdSort} (w : World) (action : string)
    (entry : string * list FileInfo) : M unit :=
  emit (EvGroup (length entry.2) entry.1) ;;
  fs <- get_fs ;;
  sorted_files <- lift_result (std_sort (mtime_less w fs) (fi_path <$> entry.2)) ;;
  match sorted_files with
  | [] => ret tt
  | original :: rest =>
      emit (EvOriginal original) ;;
      for_each (process_duplicate w action original) rest
  end.

Definition handle_duplicates `{StdSort} `{UnorderedIter} (w : World)
    (duplicates : gmap string (list FileInfo)) (action : string) : M unit :=
  for_each (handle_group w action) (iterate duplicates).

(** ** main *)

(** [fs::exists(directory)] and [fs::is_directory(directory)], the
    overloads that throw. *)
Definition fs_exists (w : World) (p : string) : result bool :=
  match w_status w p with
  | FsError msg => Throw (filesystem_error msg)
  | FsOk ft_not_found => Ok false
  | FsOk _ => Ok true
  end.

Definition is_directory (w : World) (p : string) : result bool :=
  match w_status w p with
  | FsError msg => Throw (filesystem_error msg)
  | FsOk ft_directory => Ok true
  | FsOk _ => Ok false
  end.

(** The test [!fs::exists(directory) || !fs::is_directory(directory)]. *)
Definition invalid_directory (w : World) (directory : string) : result bool :=
  match fs_exists w directory with
  | Throw e => Throw e
  | Ok false => Ok true
  | Ok true =>
      match is_directory w directory with
      | Throw e => Throw e
      | Ok is_dir => Ok (negb is_dir)
      end
  end.

(** How [main] ends: it returns a status, or an exception leaves it and
    [std::terminate] ends the process. *)
Inductive outcome : Type :=
| Exit (status : Z)
| Terminate (e : exn).

(** The [try] block of [main]; its value is the status of the [return]
    inside it, if that one is taken. *)
Definition main_body `{StdHash} `{StdSort} `{UnorderedIter} (w : World)
    (directory action : string) : M (option Z) :=
  emit (EvScanning directory) ;;
  let files := find_files w directory in
  emit_all files.2 ;;
  emit (EvFoundFiles (length files.1)) ;;
  emit EvLooking ;;
  fs <- get_fs ;;
  let duplicates := find_duplicates fs files.1 in
  emit_all duplicates.2 ;;
  if decide (duplicates.1 = ∅) then
    emit EvNoDuplicates ;; ret (Some 0%Z)
  else
    emit (EvFoundGroups (size duplicates.1)) ;;
    handle_duplicates w duplicates.1 action ;;
    ret None.

(** [argv] holds the program name and the arguments, so [argc] is its
    length.  The test of the directory stands before the [try] block: an
    exception it throws is caught by nobody. *)
Definition main `{StdHash} `{StdSort} `{UnorderedIter} (w : World)
    (argv : list string) (st : state) : outcome * state :=
  match argv with
  | [] => (Exit 1, snd (emit (EvUsage "") st))
  | [prog] => (Exit 1, snd (emit (EvUsage prog) st))
  | _ :: directory :: rest =>
      let action := match rest with a :: _ => a | [] => "--list" end in
      match invalid_directory w directory with
      | Throw e => (Terminate e, st)
      | Ok true => (Exit 1, snd (emit (EvInvalidDirectory directory) st))
      | Ok false =>
          match main_body w directory action st with
          | (Ok (Some status), st') => (Exit status, st')
          | (Ok None, st') => (Exit 0, st')
          | (Throw e, st') => (Exit 1, snd (emit (EvError (what e)) st'))
          end
      end
  end.

(** * Implementations of the library interfaces

    Concrete sorts, iteration orders and a hash, to run the model and to
    show that the interfaces above can be met. *)

(** Insertion of [x] before the first element it is less than. *)
Fixpoint insert_by (comp : string → string → result bool) (x : string)
    (l : list string) : result (list string) :=
  match l with
  | [] => Ok [x]
  | y :: l' =>
      match comp x y with
      | Throw e => Throw e
      | Ok true => Ok (x :: l)
      | Ok false =>
          match insert_by comp x l' with
          | Throw e => Throw e
          | Ok r => Ok (y :: r)
          end
      end
  end.

Definition insert_step (comp : string → string → result bool)
    (acc : result (list string)) (x : string) : result (list string) :=
  match acc with
  | Throw e => Throw e
  | Ok sorted => insert_by comp x sorted
  end.

(** Insertion sort taking the elements front to back: elements that
    compare equal keep their order. *)
Definition insertion_sort (comp : string → string → result bool)
    (l : list string) : result (list string) :=
  fold_left (insert_step comp) l (Ok []).

(** Insertion sort taking the elements back to front: a correct sort in
    which elements that compare equal come out in reverse order. *)
Definition insertion_sort_back (comp : string → string → result bool)
    (l : list string) : result (list string) :=
  foldr (λ x acc, insert_step comp acc x) (Ok []) l.

(** ** The sort of libstdc++

    [std::sort] as GCC 12 implements it ([bits/stl_algo.h] and
    [bits/stl_heap.h]): an introsort that partitions ranges of more than 16
    elements around a median of three, falls back to a heap sort when the
    recursion gets too deep, and finishes with an insertion sort.  Iterators
    are indices into the vector.  The loops that C++ leaves unguarded stop
    in the model where the iterator would leave the vector, which a
    comparison that is a strict weak ordering never lets happen. *)

Definition bind_result {A B} (r : result A) (k : A → result B) : result B :=
  match r with
  | Ok a => k a
  | Throw e => Throw e
  end.

Notation "'let?' x := m 'in' k" := (bind_result m (λ x, k))
  (at level 10, x name, m at level 100, k at level 200).

Section libstdcxx.
Context (comp : string → string → result bool).

Definition elt (a : list string) (i : nat) : string := default "" (a !! i).

Definition iter_swap (a : list string) (i j : nat) : list string :=
  <[j := elt a i]> (<[i := elt a j]> a).

(** [__unguarded_linear_insert]: the loop
    [while (comp(val, *next)) { *last = *next; last = next; --next; }]. *)
Fixpoint unguarded_linear_insert_loop (a : list string) (val : string)
    (last : nat) {struct last} : result (list string) :=
  match last with
  | 0 => Ok (<[last := val]> a)
  | S next =>
      let? less := comp val (elt a next) in
      if less : bool
      then unguarded_linear_insert_loop (<[last := elt a next]> a) val next
      else Ok (<[last := val]> a)
  end.

Definition unguarded_linear_insert (a : list string) (last : nat)
    : result (list string) :=
  unguarded_linear_insert_loop a (elt a last) last.

(** [std::move_backward(first, i, i + 1)] followed by [*first = val]. *)
Definition move_to_front (a : list string) (first i : nat) : list string :=
  take first a ++ elt a i :: take (i - first) (drop first a) ++ drop (S i) a.

(** One turn of the loop of [__insertion_sort]. *)
Definition insertion_sort_step (first : nat) (acc : result (list string))
    (i : nat) : result (list string) :=
  let? a := acc in
  let? less := comp (elt a i) (elt a first) in
  if less : bool then Ok (move_to_front a first i)
  else unguarded_linear_insert a i.

Definition insertion_sort_range (a : list string) (first last : nat)
    : result (list string) :=
  if decide (first = last) then Ok a
  else fold_left (insertion_sort_step first)
         (seq (S first) (last - S first)) (Ok a).

Definition unguarded_insertion_sort (a : list string) (first last : nat)
    : result (list string) :=
  fold_left (λ acc i, let? a := acc in unguarded_linear_insert a i)
    (seq first (last - first)) (Ok a).

Definition S_threshold : nat := 16.

Definition final_insertion_sort (a : list string) (first last : nat)
    : result (list string) :=
  if decide (S_threshold < last - first) then
    let? a := insertion_sort_range a first (first + S_threshold) in
    unguarded_insertion_sort a (first + S_threshold) last
  else insertion_sort_range a first last.

(** *** Heap sort *)

(** The loop of [__push_heap]. *)
Fixpoint push_heap_loop (fuel : nat) (a : list string)
    (first holeIndex topIndex : nat) (value : string) : result (list string) :=
  match fuel with
  | 0 => Ok (<[first + holeIndex := value]> a)
  | S fuel =>
      let parent := (holeIndex - 1) / 2 in
      if decide (topIndex < holeIndex) then
        let? less := comp (elt a (first + parent)) value in
        if less : bool
        then push_heap_loop fuel
               (<[first + holeIndex := elt a (first + parent)]> a)
               first parent topIndex value
        else Ok (<[first + holeIndex := value]> a)
      else Ok (<[first + holeIndex := value]> a)
  end.

Definition push_heap (a : list string) (first holeIndex topIndex : nat)
    (value : string) : result (list string) :=
  push_heap_loop (S holeIndex) a first holeIndex topIndex value.

(** The loop of [__adjust_heap]; it returns the vector, [holeIndex] and
    [secondChild]. *)
Fixpoint adjust_heap_loop (fuel : nat) (a : list string)
    (first holeIndex secondChild len : nat)
    : result (list string * nat * nat) :=
  match fuel with
  | 0 => Ok (a, holeIndex, secondChild)
  | S fuel =>
      if decide (secondChild < (len - 1) / 2) then
        let secondChild := 2 * (secondChild + 1) in
        let? less := comp (elt a (first + secondChild))
                          (elt a (first + (secondChild - 1))) in
        let secondChild := if less : bool then secondChild - 1 else secondChild in
        adjust_heap_loop fuel
          (<[first + holeIndex := elt a (first + secondChild)]> a)
          first secondChild secondChild len
      else Ok (a, holeIndex, secondChild)
  end.

Definition adjust_heap (a : list string) (first holeIndex len : nat)
    (value : string) : result (list string) :=
  let topIndex := holeIndex in
  let? moved := adjust_heap_loop len a first holeIndex holeIndex len in
  let '(a, holeIndex, secondChild) := moved in
  let '(a, holeIndex) :=
    if decide (Nat.even len = true ∧ secondChild = (len - 2) / 2) then
      let secondChild := 2 * (secondChild + 1) in
      (<[first + holeIndex := elt a (first + (secondChild - 1))]> a,
       secondChild - 1)
    else (a, holeIndex) in
  push_heap a first holeIndex topIndex value.

Definition pop_heap (a : list string) (first last res : nat)
    : result (list string) :=
  let value := elt a res in
  adjust_heap (<[res := elt a first]> a) first 0 (last - first) value.

Definition make_heap (a : list string) (first last : nat)
    : result (list string) :=
  if decide (last - first < 2) then Ok a
  else
    let len := last - first in
    fold_left
      (λ acc parent,
         let? a := acc in adjust_heap a first parent len (elt a (first + parent)))
      (reverse (seq 0 (S ((len - 2) / 2)))) (Ok a).

Definition sort_heap (a : list string) (first last : nat)
    : result (list string) :=
  fold_left (λ acc last, let? a := acc in pop_heap a first last last)
    (reverse (seq (S first) (last - S first))) (Ok a).

Definition heap_select (a : list string) (first middle last : nat)
    : result (list string) :=
  let? a := make_heap a first middle in
  fold_left
    (λ acc i,
       let? a := acc in
       let? less := comp (elt a i) (elt a first) in
       if less : bool then pop_heap a first middle i else Ok a)
    (seq middle (last - middle)) (Ok a).

Definition partial_sort (a : list string) (first middle last : nat)
    : result (list string) :=
  let? a := heap_select a first middle last in
  sort_heap a first middle.

(** *** Partition *)

Definition move_median_to_first (arr : list string) (res a b c : nat)
    : result (list string) :=
  let? ab := comp (elt arr a) (elt arr b) in
  if ab : bool then
    let? bc := comp (elt arr b) (elt arr c) in
    if bc : bool then Ok (iter_swap arr res b)
    else
      let? ac := comp (elt arr a) (elt arr c) in
      if ac : bool then Ok (iter_swap arr res c)
      else Ok (iter_swap arr res a)
  else
    let? ac := comp (elt arr a) (elt arr c) in
    if ac : bool then Ok (iter_swap arr res a)
    else
      let? bc := comp (elt arr b) (elt arr c) in
      if bc : bool then Ok (iter_swap arr res c)
      else Ok (iter_swap arr res b).

(** [while (comp(first, pivot)) ++first;] *)
Fixpoint scan_up (fuel : nat) (a : list string) (first pivot : nat)
    : result nat :=
  match fuel with
  | 0 => Ok first
  | S fuel =>
      let? less := comp (elt a first) (elt a pivot) in
      if less : bool then scan_up fuel a (S first) pivot else Ok first
  end.

(** [while (comp(pivot, last)) --last;] *)
Fixpoint scan_down (a : list string) (pivot last : nat) {struct last}
    : result nat :=
  let? less := comp (elt a pivot) (elt a last) in
  if less : bool then
    match last with
    | 0 => Ok last
    | S last => scan_down a pivot last
    end
  else Ok last.

Fixpoint unguarded_partition (fuel : nat) (a : list string)
    (first last pivot : nat) : result (list string * nat) :=
  match fuel with
  | 0 => Ok (a, first)
  | S fuel =>
      let? first := scan_up (length a) a first pivot in
      let last := last - 1 in
      let? last := scan_down a pivot last in
      if decide (first < last) then
        unguarded_partition fuel (iter_swap a first last) (S first) last pivot
      else Ok (a, first)
  end.

Definition unguarded_partition_pivot (a : list string) (first last : nat)
    : result (list string * nat) :=
  let mid := first + (last - first) / 2 in
  let? a := move_median_to_first a first (first + 1) mid (last - 1) in
  unguarded_partition (length a) a (first + 1) last first.

(** *** Introsort *)

(** The loop of [__introsort_loop] goes on with [last = cut] and the
    decremented [depth_limit]: the second recursive call here. *)
Fixpoint introsort_loop (depth_limit : nat) (a : list string)
    (first last : nat) : result (list string) :=
  if decide (S_threshold < last - first) then
    match depth_limit with
    | 0 => partial_sort a first last last
    | S depth_limit =>
        let? parted := unguarded_partition_pivot a first last in
        let '(a, cut) := parted in
        let? a := introsort_loop depth_limit a cut last in
        introsort_loop depth_limit a first cut
    end
  else Ok a.

Definition libstdcxx_sort (a : list string) : result (list string) :=
  if decide (a = []) then Ok a
  else
    let? a := introsort_loop (Nat.log2 (length a) * 2) a 0 (length a) in
    final_insertion_sort a 0 (length a).
End libstdcxx.

(** A toy [std::hash]: the bytes read as a number in base 257, reduced to
    64 bits. *)
Definition poly_hash_step (h : N) (c : ascii) : N :=
  ((h * 257 + N.of_nat (nat_of_ascii c) + 1) mod 2 ^ 64)%N.

Fixpoint poly_hash_from (h : N) (s : string) : N :=
  match s with
  | EmptyString => h
  | String c s' => poly_hash_from (poly_hash_step h c) s'
  end.

Definition poly_hash (s : string) : N := poly_hash_from 0%N s.

(** The texts of libstdc++ on Linux for the error conditions of the file
    system. *)
Definition strerror (code : errc) : string :=
  match code with
  | no_such_file_or_directory => "No such file or directory"
  | file_exists => "File exists"
  | too_many_symbolic_link_levels => "Too many levels of symbolic links"
  end.

Definition libstdcxx_what (call : fs_call) (code : errc) : string :=
  match call with
  | call_last_write_time p =>
      "filesystem error: cannot get file time: " +:+ strerror code +:+
      " [" +:+ p +:+ "]"
  | call_create_hard_link target link =>
      "filesystem error: cannot create hard link: " +:+ strerror code +:+
      " [" +:+ target +:+ "] [" +:+ link +:+ "]"
  end.

(** * Facts about the sorts *)

Section insertion.
Context (comp : string → string → result bool).

Lemma insert_by_perm x l r : insert_by comp x l = Ok r → r ≡ₚ x :: l.
Proof.
  revert r. induction l as [|y l IH]; intros r; simpl.
  - by intros [= <-].
  - destruct (comp x y) as [[|]|]; try done.
    + by intros [= <-].
    + destruct (insert_by comp x l) as [r'|]; [|done].
      intros [= <-]. rewrite (IH r' eq_refl). apply perm_swap.
Qed.

Lemma insert_by_throw_head x y l :
  is_throw (comp x y) → is_throw (insert_by comp x (y :: l)).
Proof. simpl. by destruct (comp x y). Qed.

Lemma fold_insert_throw l e :
  fold_left (insert_step comp) l (Throw e) = Throw e.
Proof. by induction l. Qed.

Lemma fold_insert_perm l : ∀ acc r,
  fold_left (insert_step comp) l (Ok acc) = Ok r → r ≡ₚ acc ++ l.
Proof.
  induction l as [|x l IH]; intros acc r; simpl.
  - intros [= <-]. by rewrite app_nil_r.
  - destruct (insert_by comp x acc) as [acc'|e] eqn:Hins.
    + intros Hr. rewrite (IH _ _ Hr), (insert_by_perm _ _ _ Hins).
      by rewrite <-Permutation_middle.
    + by rewrite fold_insert_throw.
Qed.

Lemma insertion_sort_back_perm l r :
  insertion_sort_back comp l = Ok r → r ≡ₚ l.
Proof.
  revert r. induction l as [|x l IH]; intros r; simpl.
  - by intros [= <-].
  - destruct (insertion_sort_back comp l) as [s|]; [|done]; simpl.
    intros Hins. rewrite (insert_by_perm _ _ _ Hins).
    by rewrite (IH s eq_refl).
Qed.

(** ** With a comparison by key *)

Section by_key.
Context (key : string → Z).

Let le_key (a b : string) : Prop := (key a ≤ key b)%Z.

Lemma insert_by_sorted x l :
  (∀ y, y ∈ l → comp x y = Ok (bool_decide (key x < key y)%Z)) →
  StronglySorted le_key l →
  ∃ r, insert_by comp x l = Ok r ∧ StronglySorted le_key r.
Proof.
  induction l as [|y l IH]; intros Hcomp Hsorted; simpl.
  - eexists; split; [done|]. repeat constructor.
  - apply StronglySorted_inv in Hsorted as [Hl Hy].
    rewrite Hcomp by left. case_bool_decide as Hlt.
    + eexists; split; [done|]. constructor; [by constructor|].
      constructor; [unfold le_key; lia|].
      eapply Forall_impl; [exact Hy|]. unfold le_key. intros; simpl in *; lia.
    + destruct IH as (r & Hr & Hsr); [by intros; apply Hcomp; right|done|].
      rewrite Hr. eexists; split; [done|]. constructor; [done|].
      rewrite (insert_by_perm _ _ _ Hr). constructor; [unfold le_key; lia|done].
Qed.

Lemma fold_insert_sorted l : ∀ acc,
  (∀ a b, a ∈ acc ++ l → b ∈ acc ++ l →
     comp a b = Ok (bool_decide (key a < key b)%Z)) →
  StronglySorted le_key acc →
  ∃ r, fold_left (insert_step comp) l (Ok acc) = Ok r ∧
       StronglySorted le_key r.
Proof.
  induction l as [|x l IH]; intros acc Hcomp Hsorted; simpl.
  - eauto.
  - destruct (insert_by_sorted x acc) as (acc' & Hins & Hacc'); [|done|].
    { intros y Hy. apply Hcomp; set_solver. }
    rewrite Hins. apply IH; [|done].
    intros a b Ha Hb. pose proof (insert_by_perm _ _ _ Hins) as Hp.
    apply Hcomp.
    + rewrite elem_of_app, Hp in Ha. set_solver.
    + rewrite elem_of_app, Hp in Hb. set_solver.
Qed.

Lemma insertion_sort_back_sorted l :
  (∀ a b, a ∈ l → b ∈ l → comp a b = Ok (bool_decide (key a < key b)%Z)) →
  ∃ r, insertion_sort_back comp l = Ok r ∧ StronglySorted le_key r.
Proof.
  induction l as [|x l IH]; intros Hcomp; simpl.
  - eexists; split; [done|constructor].
  - destruct IH as (s & Hs & Hsorted).
    { intros a b Ha Hb. apply Hcomp; by right. }
    rewrite Hs. simpl.
    apply insert_by_sorted; [|done].
    intros y Hy. apply Hcomp; [left|right].
    by rewrite <-(insertion_sort_back_perm l s Hs).
Qed.
End by_key.

(** ** With an element whose comparisons throw *)

Section poisoned.
Context (range : list string) (p : string).
Context (Hp : ∀ y, y ∈ range → is_throw (comp p y) ∧ is_throw (comp y p)).

Lemma fold_insert_poisoned_rest l : ∀ acc,
  acc ≠ [] → acc ⊆ range → l ⊆ range → p ∈ l →
  is_throw (fold_left (insert_step comp) l (Ok acc)).
Proof.
  induction l as [|x l IH]; intros acc Hne Hacc Hl Hin; [by inversion Hin|].
  simpl. destruct acc as [|a acc]; [done|].
  destruct (decide (x = p)) as [->|Hxp].
  - pose proof (insert_by_throw_head p a acc) as Hthrow.
    destruct (insert_by comp p (a :: acc)) as [|e].
    + exfalso. apply Hthrow. apply Hp. set_solver.
    + by rewrite fold_insert_throw.
  - destruct (insert_by comp x (a :: acc)) as [acc'|e] eqn:Hins;
      [|by rewrite fold_insert_throw].
    pose proof (insert_by_perm _ _ _ Hins) as Hperm.
    apply IH.
    + intros ->. by apply Permutation_nil_cons in Hperm.
    + intros z Hz. rewrite Hperm in Hz. set_solver.
    + set_solver.
    + set_solver.
Qed.

Lemma insertion_sort_poisoned l :
  l ⊆ range → p ∈ l → 1 < length l → is_throw (insertion_sort comp l).
Proof.
  intros Hl Hin Hlen. destruct l as [|a [|b l]]; simpl in Hlen; try lia.
  unfold insertion_sort. simpl.
  destruct (decide (p ∈ b :: l)) as [Hrest|Hrest].
  - apply (fold_insert_poisoned_rest (b :: l) [a]); set_solver.
  - assert (a = p) as -> by set_solver.
    assert (is_throw (comp b p)) as Hthrow by (apply Hp; set_solver).
    destruct (comp b p); [done|]. by rewrite fold_insert_throw.
Qed.

Lemma insertion_sort_back_poisoned l :
  l ⊆ range → p ∈ l → 1 < length l → is_throw (insertion_sort_back comp l).
Proof.
  induction l as [|x l IH]; intros Hl Hin Hlen; [simpl in Hlen; lia|].
  simpl. destruct (insertion_sort_back comp l) as [s|e] eqn:Hs; simpl; [|done].
  pose proof (insertion_sort_back_perm l s Hs) as Hperm.
  destruct s as [|z s].
  { apply Permutation_nil in Hperm. subst l. simpl in Hlen; lia. }
  apply insert_by_throw_head.
  assert (z ∈ range) as Hz by (apply Hl; right; rewrite <-Hperm; left).
  destruct (decide (x = p)) as [->|Hxp]; [by apply Hp|].
  assert (p ∈ l) as Hpl by set_solver.
  destruct (decide (1 < length l)) as [Hlong|Hshort].
  - destruct IH; [set_solver|done|done].
  - destruct l as [|y [|??]]; simpl in *; try lia.
    apply Permutation_singleton_r in Hperm as [= -> ->].
    assert (y = p) as -> by set_solver. apply Hp. set_solver.
Qed.
End poisoned.
End insertion.

Lemma insertion_sort_spec : StdSortSpec insertion_sort.
Proof.
  split.
  - intros key comp l Hcomp.
    destruct (fold_insert_sorted comp key l []) as (r & Hr & Hsorted);
      [done|constructor|].
    exists r. split; [done|]. split; [|done].
    by rewrite (fold_insert_perm comp l [] r Hr).
  - intros comp l x Hx Hlen Hthrow.
    by apply (insertion_sort_poisoned comp l x Hthrow).
Qed.

Lemma insertion_sort_back_spec : StdSortSpec insertion_sort_back.
Proof.
  split.
  - intros key comp l Hcomp.
    destruct (insertion_sort_back_sorted comp key l Hcomp) as (r & Hr & Hsorted).
    exists r. split; [done|]. split; [|done].
    by apply insertion_sort_back_perm with comp.
  - intros comp l x Hx Hlen Hthrow.
    by apply (insertion_sort_back_poisoned comp l x Hthrow).
Qed.

(** Two iteration orders: the one of the map library, and its reverse. *)
Program Definition map_order : UnorderedIter :=
  {| iterate K _ _ V m := map_to_list m |}.
Next Obligation. done. Qed.

Program Definition reverse_order : UnorderedIter :=
  {| iterate K _ _ V m := reverse (map_to_list m) |}.
Next Obligation. intros. apply reverse_Permutation. Qed.

(** * Facts about the digest *)

Global Instance exn_eq_dec : EqDecision exn.
Proof. solve_decision. Defined.

Global Instance result_eq_dec `{EqDecision A} : EqDecision (result A).
Proof. solve_decision. Defined.

(** The decimal digits [std::to_string] writes hold no underscore, so the
    first underscore of a digest ends the length. *)
Fixpoint underscore_free (s : string) : Prop :=
  match s with
  | EmptyString => True
  | String c s' => c ≠ "_"%char ∧ underscore_free s'
  end.

Lemma pretty_N_char_underscore_free x : pretty_N_char x ≠ "_"%char.
Proof. unfold pretty_N_char. by repeat case_match. Qed.

Lemma pretty_N_go_underscore_free x : ∀ s, underscore_free s → underscore_free (pretty_N_go x s).
Proof.
  induction (N.lt_wf_0 x) as [x _ IH]; intros s Hs.
  destruct (decide (x = 0)%N) as [->|Hx]; [by rewrite pretty_N_go_0|].
  rewrite pretty_N_go_step by lia.
  apply IH; [apply N.div_lt; lia|].
  split; [apply pretty_N_char_underscore_free|done].
Qed.

Lemma pretty_N_underscore_free (x : N) : underscore_free (pretty x).
Proof.
  unfold pretty, pretty_N. case_decide; [by repeat split|].
  by apply pretty_N_go_underscore_free.
Qed.

Lemma separator_inj d1 : ∀ d2 r1 r2,
  underscore_free d1 → underscore_free d2 →
  d1 +:+ "_" +:+ r1 = d2 +:+ "_" +:+ r2 → d1 = d2.
Proof.
  induction d1 as [|c1 d1 IH]; intros [|c2 d2] r1 r2 H1 H2; simpl.
  - done.
  - intros [= <- _]. by destruct H2.
  - intros [= -> _]. by destruct H1.
  - intros [= -> Heq]. f_equal. destruct H1, H2. by eapply IH.
Qed.

(** Two contents of different length never have the same digest, whatever
    [std::hash] answers. *)
Lemma digest_length `{StdHash} (c1 c2 : string) :
  digest c1 = digest c2 → String.length c1 = String.length c2.
Proof.
  intros Heq. apply separator_inj in Heq; [|apply pretty_N_underscore_free..].
  apply (inj pretty) in Heq. lia.
Qed.

Lemma generate_file_hash_Ok `{StdHash} fs p h :
  generate_file_hash fs p = Ok h ↔
  ∃ content, read_file fs p = Some content ∧ h = digest content.
Proof.
  unfold generate_file_hash. destruct (read_file fs p) as [c|]; split.
  - intros [= <-]. eauto.
  - by intros (c' & [= <-] & ->).
  - done.
  - by intros (? & ? & ?).
Qed.

(** * Facts about find_duplicates *)

Definition nonempty {A} (l : list A) : option (list A) :=
  match l with [] => None | _ => Some l end.

Lemma nonempty_Some {A} (l g : list A) : nonempty l = Some g → g = l ∧ l ≠ [].
Proof. destruct l; [done|]. by intros [= <-]. Qed.

Lemma default_nonempty {A} (l : list A) : default [] (nonempty l) = l.
Proof. by destruct l. Qed.

Lemma nonempty_snoc {A} (l : list A) x : nonempty (l ++ [x]) = Some (l ++ [x]).
Proof. by destruct l. Qed.

(** The files of one size, and among them the files of one digest, in the
    order of the input. *)
Definition bucket_of (files : list FileInfo) (size : N) : list FileInfo :=
  filter (λ f, fi_size f = size) files.

Definition hashed_of `{StdHash} (fs : filesystem) (size : N)
    (group : list FileInfo) (hash : string) : list FileInfo :=
  (λ f, mkFileInfo (fi_path f) size hash) <$>
    filter (λ f, generate_file_hash fs (fi_path f) = Ok hash) group.

Lemma group_by_size_lookup files size :
  group_by_size files !! size = nonempty (bucket_of files size).
Proof.
  unfold group_by_size, bucket_of.
  induction files as [|f files IH] using rev_ind; [done|].
  rewrite fold_left_app, filter_app. simpl. unfold push_back at 1.
  rewrite lookup_insert. case_decide as Hsize.
  - subst size. rewrite IH, default_nonempty.
    rewrite filter_cons_True by done. by rewrite filter_nil, nonempty_snoc.
  - rewrite IH. rewrite filter_cons_False by done.
    by rewrite filter_nil, app_nil_r.
Qed.

Lemma hash_bucket_lookup `{StdHash} fs size group hash :
  (hash_bucket fs size group).1 !! hash = nonempty (hashed_of fs size group hash).
Proof.
  unfold hash_bucket, hashed_of.
  induction group as [|f group IH] using rev_ind; [done|].
  rewrite fold_left_app, filter_app, fmap_app. simpl.
  unfold hash_step at 1.
  destruct (generate_file_hash fs (fi_path f)) as [h|e] eqn:Hh; simpl.
  - unfold push_back. rewrite lookup_insert. case_decide as Hhash.
    + subst h. rewrite IH, default_nonempty.
      rewrite filter_cons_True by done. rewrite filter_nil. simpl.
      by rewrite nonempty_snoc.
    + rewrite IH. rewrite filter_cons_False by congruence.
      rewrite filter_nil. simpl. by rewrite app_nil_r.
  - rewrite IH. rewrite filter_cons_False by congruence.
    rewrite filter_nil. simpl. by rewrite app_nil_r.
Qed.

Lemma iterate_elem_of `{UnorderedIter} `{Countable K} {V} (m : gmap K V) k v :
  (k, v) ∈ iterate m ↔ m !! k = Some v.
Proof. by rewrite iterate_perm, elem_of_map_to_list. Qed.

Lemma iterate_NoDup_keys `{UnorderedIter} `{Countable K} {V} (m : gmap K V) :
  NoDup (iterate m).*1.
Proof. rewrite iterate_perm. apply NoDup_fst_map_to_list. Qed.

Lemma iterate_length `{UnorderedIter} `{Countable K} {V} (m : gmap K V) :
  length (iterate m) = size m.
Proof. by rewrite iterate_perm, length_map_to_list. Qed.

(** What the loop [duplicates[hash] = files] leaves under one key. *)
Lemma fold_keep_step_lookup (l : list (string * list FileInfo)) hash : ∀ d,
  NoDup l.*1 →
  fold_left keep_step l d !! hash =
    match (list_to_map l : gmap string (list FileInfo)) !! hash with
    | Some g => if decide (1 < length g) then Some g else d !! hash
    | None => d !! hash
    end.
Proof.
  induction l as [|[k g] l IH]; intros d Hnodup; [done|].
  apply NoDup_cons in Hnodup as [Hk Hnodup]. simpl.
  rewrite IH by done. rewrite lookup_insert. case_decide as Hkey.
  - subst k. rewrite (not_elem_of_list_to_map_1 _ hash) by done.
    unfold keep_step. simpl. case_decide; [|done]. by rewrite lookup_insert_eq.
  - assert (keep_step d (k, g) !! hash = d !! hash) as ->; [|done].
    unfold keep_step. simpl. case_decide; [|done]. by rewrite lookup_insert_ne.
Qed.

Lemma keep_iterate_lookup `{UnorderedIter} (m d : gmap string (list FileInfo)) hash :
  fold_left keep_step (iterate m) d !! hash =
    match m !! hash with
    | Some g => if decide (1 < length g) then Some g else d !! hash
    | None => d !! hash
    end.
Proof.
  rewrite fold_keep_step_lookup by apply iterate_NoDup_keys.
  assert ((list_to_map (iterate m) : gmap string (list FileInfo)) = m) as ->; [|done].
  rewrite <-(list_to_map_to_list m) at 2.
  apply list_to_map_proper; [apply iterate_NoDup_keys|apply iterate_perm].
Qed.

(** The group one size bucket stores under [hash], if any. *)
Definition kept_of `{StdHash} (fs : filesystem) (entry : N * list FileInfo)
    (hash : string) : option (list FileInfo) :=
  if decide (1 < length entry.2) then
    let g := hashed_of fs entry.1 entry.2 hash in
    if decide (1 < length g) then Some g else None
  else None.

Lemma bucket_step_lookup `{StdHash} `{UnorderedIter} fs acc entry hash :
  (bucket_step fs acc entry).1 !! hash =
    match kept_of fs entry hash with
    | Some g => Some g
    | None => acc.1 !! hash
    end.
Proof.
  unfold bucket_step, kept_of. case_decide; [|done]. simpl.
  rewrite keep_iterate_lookup, hash_bucket_lookup.
  destruct (hashed_of fs entry.1 entry.2 hash) as [|f g] eqn:Hg; simpl.
  - done.
  - by case_decide.
Qed.

Lemma fold_bucket_step_sound `{StdHash} `{UnorderedIter} fs l hash g : ∀ acc,
  (fold_left (bucket_step fs) l acc).1 !! hash = Some g →
  (∃ entry, entry ∈ l ∧ kept_of fs entry hash = Some g) ∨ acc.1 !! hash = Some g.
Proof.
  induction l as [|entry l IH]; intros acc; simpl; [by right|].
  intros [(entry' & Hin & Hkept)|Hacc]%IH.
  - left. exists entry'. split; [by right|done].
  - rewrite bucket_step_lookup in Hacc.
    destruct (kept_of fs entry hash) as [g'|] eqn:Hkept; [|by right].
    left. exists entry. split; [by left|congruence].
Qed.

Lemma fold_bucket_step_complete `{StdHash} `{UnorderedIter} fs l hash g : ∀ acc,
  (∀ entry g', entry ∈ l → kept_of fs entry hash = Some g' → g' = g) →
  (∃ entry, entry ∈ l ∧ kept_of fs entry hash = Some g) ∨ acc.1 !! hash = Some g →
  (fold_left (bucket_step fs) l acc).1 !! hash = Some g.
Proof.
  induction l as [|entry l IH]; intros acc Huniq Hsrc; simpl.
  - destruct Hsrc as [(? & Hin & _)|?]; [by inversion Hin|done].
  - apply IH; [intros; eapply Huniq; [by right|done]|].
    destruct Hsrc as [(entry' & Hin & Hkept)|Hacc].
    + apply elem_of_cons in Hin as [->|Hin]; [|left; eauto].
      right. by rewrite bucket_step_lookup, Hkept.
    + right. rewrite bucket_step_lookup.
      destruct (kept_of fs entry hash) as [g'|] eqn:Hkept; [|done].
      f_equal. eapply Huniq; [by left|done].
Qed.

(** Every stored group is the digest class of a size bucket, and both have
    two members or more. *)
Lemma find_duplicates_sound `{StdHash} `{UnorderedIter} fs files hash g :
  (find_duplicates fs files).1 !! hash = Some g →
  ∃ size, 1 < length (bucket_of files size) ∧ 1 < length g ∧
          g = hashed_of fs size (bucket_of files size) hash.
Proof.
  intros [([size bucket] & Hin & Hkept)|Hempty]%fold_bucket_step_sound;
    [|simpl in Hempty; by rewrite lookup_empty in Hempty].
  apply iterate_elem_of in Hin. rewrite group_by_size_lookup in Hin.
  apply nonempty_Some in Hin as [-> _].
  unfold kept_of in Hkept. simpl in Hkept.
  repeat case_decide; simplify_eq. by exists size.
Qed.

Lemma elem_of_hashed_of `{StdHash} fs size group hash m :
  m ∈ hashed_of fs size group hash ↔
  ∃ f, f ∈ group ∧ generate_file_hash fs (fi_path f) = Ok hash ∧
       m = mkFileInfo (fi_path f) size hash.
Proof.
  unfold hashed_of. rewrite list_elem_of_fmap.
  setoid_rewrite list_elem_of_filter. naive_solver.
Qed.

(** The recorded size of every file that can be read is the length of what
    a read returns. *)
Definition sizes_match (fs : filesystem) (files : list FileInfo) : Prop :=
  ∀ f content, f ∈ files → read_file fs (fi_path f) = Some content →
    fi_size f = N.of_nat (String.length content).

(** All files of one digest, in the order of the input. *)
Definition digest_class `{StdHash} (fs : filesystem) (files : list FileInfo)
    (hash : string) : list FileInfo :=
  filter (λ f, generate_file_hash fs (fi_path f) = Ok hash) files.

Lemma hashed_of_bucket `{StdHash} fs files size hash :
  hashed_of fs size (bucket_of files size) hash =
  (λ f, mkFileInfo (fi_path f) size hash) <$>
    filter (λ f, fi_size f = size) (digest_class fs files hash).
Proof.
  unfold hashed_of, bucket_of, digest_class. f_equal.
  rewrite !list_filter_filter. apply list_filter_iff. naive_solver.
Qed.

Lemma digest_class_same_size `{StdHash} fs files hash f1 f2 :
  sizes_match fs files →
  f1 ∈ digest_class fs files hash → f2 ∈ digest_class fs files hash →
  fi_size f1 = fi_size f2.
Proof.
  intros Hsizes [Hh1 Hf1]%list_elem_of_filter [Hh2 Hf2]%list_elem_of_filter.
  apply generate_file_hash_Ok in Hh1 as (c1 & Hc1 & ->).
  apply generate_file_hash_Ok in Hh2 as (c2 & Hc2 & Heq).
  rewrite (Hsizes f1 c1), (Hsizes f2 c2) by done.
  by rewrite (digest_length _ _ Heq).
Qed.

Lemma filter_all {A} (P : A → Prop) `{∀ x, Decision (P x)} (l : list A) :
  (∀ x, x ∈ l → P x) → filter P l = l.
Proof.
  induction l as [|x l IH]; intros HP; [done|].
  rewrite filter_cons_True by (apply HP; left).
  f_equal. apply IH. intros; apply HP; by right.
Qed.

(** With sizes that match the contents, the result holds exactly the
    digest classes of two files or more. *)
Lemma find_duplicates_lookup `{StdHash} `{UnorderedIter} fs files hash :
  sizes_match fs files →
  (find_duplicates fs files).1 !! hash =
    if decide (1 < length (digest_class fs files hash))
    then Some ((λ f, mkFileInfo (fi_path f) (fi_size f) hash) <$>
                 digest_class fs files hash)
    else None.
Proof.
  intros Hsizes. case_decide as Hlen.
  - destruct (digest_class fs files hash) as [|f0 cls] eqn:Hcls;
      [simpl in Hlen; lia|].
    assert (∀ f, f ∈ f0 :: cls → fi_size f = fi_size f0) as Hsame.
    { intros f Hf. rewrite <-Hcls in Hf.
      eapply digest_class_same_size; [done..|]. rewrite Hcls. left. }
    assert (hashed_of fs (fi_size f0) (bucket_of files (fi_size f0)) hash =
            (λ f, mkFileInfo (fi_path f) (fi_size f) hash) <$> f0 :: cls) as Hg.
    { rewrite hashed_of_bucket, Hcls, (filter_all _ _ Hsame).
      apply list_fmap_ext. intros i f Hf%list_elem_of_lookup_2.
      by rewrite (Hsame f Hf). }
    assert (f0 ∈ files) as Hf0.
    { assert (f0 ∈ digest_class fs files hash) as Hin by (rewrite Hcls; left).
      by apply list_elem_of_filter in Hin as [_ ?]. }
    apply fold_bucket_step_complete.
    + intros [size' bucket'] g' Hin Hkept.
      apply iterate_elem_of in Hin. rewrite group_by_size_lookup in Hin.
      apply nonempty_Some in Hin as [-> _].
      unfold kept_of in Hkept. simpl in Hkept. repeat case_decide; simplify_eq.
      destruct (hashed_of fs size' (bucket_of files size') hash) as [|m g'] eqn:Hg';
        [simpl in *; lia|].
      assert (m ∈ hashed_of fs size' (bucket_of files size') hash) as Hm
        by (rewrite Hg'; left).
      rewrite hashed_of_bucket, Hcls in Hm.
      apply list_elem_of_fmap in Hm as (f & _ & [Hsz Hf]%list_elem_of_filter).
      rewrite (Hsame f Hf) in Hsz. subst size'. by rewrite <-Hg', Hg.
    + left. exists (fi_size f0, bucket_of files (fi_size f0)). split.
      * apply iterate_elem_of. rewrite group_by_size_lookup.
        assert (f0 ∈ bucket_of files (fi_size f0)) as Hb
          by by apply list_elem_of_filter.
        by destruct (bucket_of files (fi_size f0)); [inversion Hb|].
      * unfold kept_of. simpl. rewrite Hg.
        assert (1 < length ((λ f, mkFileInfo (fi_path f) (fi_size f) hash) <$> f0 :: cls))
          by by rewrite length_fmap.
        rewrite decide_True; [by rewrite decide_True|].
        eapply Nat.lt_le_trans; [done|]. rewrite <-Hg. unfold hashed_of.
        rewrite length_fmap. apply length_filter.
  - destruct (_ !! hash) as [g|] eqn:Hlookup; [|done]. exfalso.
    apply find_duplicates_sound in Hlookup as (size & _ & Hg & ->).
    rewrite hashed_of_bucket, length_fmap in Hg.
    pose proof (length_filter (λ f, fi_size f = size) (digest_class fs files hash)). lia.
Qed.

(** * A small tree to run the program on

    [r/a.txt] and [r/b.txt] hold the same five bytes, [r/a.txt] being the
    older one; [r/c.txt] holds five other bytes; [r/d.txt] and [r/e.txt]
    hold the same three bytes, [r/e.txt] being the older one. *)

Definition tree_fs : filesystem :=
  <["r/a.txt" := Regular (mkNode 1 (Some "hello") (FsOk 100%Z))]>
  (<["r/b.txt" := Regular (mkNode 2 (Some "hello") (FsOk 200%Z))]>
  (<["r/c.txt" := Regular (mkNode 3 (Some "world") (FsOk 50%Z))]>
  (<["r/d.txt" := Regular (mkNode 4 (Some "hey") (FsOk 300%Z))]>
  (<["r/e.txt" := Regular (mkNode 5 (Some "hey") (FsOk 250%Z))]> ∅)))).

Definition tree_catalog : list FileInfo :=
  [mkFileInfo "r/b.txt" 5 ""; mkFileInfo "r/a.txt" 5 "";
   mkFileInfo "r/c.txt" 5 ""; mkFileInfo "r/d.txt" 3 "";
   mkFileInfo "r/e.txt" 3 ""].

Definition tree_entries : list dirent :=
  [File "r/b.txt" (FsOk true) (FsOk 5%N);
   File "r/a.txt" (FsOk true) (FsOk 5%N);
   File "r/c.txt" (FsOk true) (FsOk 5%N);
   File "r/d.txt" (FsOk true) (FsOk 3%N);
   File "r/e.txt" (FsOk true) (FsOk 3%N)].

Definition tree_world : World :=
  {| w_status p := FsOk (if decide (p = "r") then ft_directory else ft_not_found);
     w_tree p :=
       if decide (p = "r") then FsOk tree_entries
       else FsError ("cannot open directory: " +:+ p);
     w_remove_error _ := None;
     w_link_error _ _ := None;
     w_what := libstdcxx_what |}.

Definition tree_group : list FileInfo :=
  [mkFileInfo "r/b.txt" 5 (@digest poly_hash "hello");
   mkFileInfo "r/a.txt" 5 (@digest poly_hash "hello")].

Lemma tree_sizes_match : sizes_match tree_fs tree_catalog.
Proof.
  intros f content Hf Hread.
  repeat (apply elem_of_cons in Hf as [->|Hf]); [..|by inversion Hf];
    vm_compute in Hread; by simplify_eq.
Qed.

Lemma group_members_agree `{StdHash} `{UnorderedIter} fs files hash g m1 m2 :
  (find_duplicates fs files).1 !! hash = Some g → m1 ∈ g → m2 ∈ g →
  fi_size m1 = fi_size m2 ∧ fi_hash m1 = fi_hash m2.
Proof.
  intros (size & _ & _ & ->)%find_duplicates_sound.
  by intros (f1 & _ & _ & ->)%elem_of_hashed_of (f2 & _ & _ & ->)%elem_of_hashed_of.
Qed.

(** * The claims about find_duplicates *)

(** C4: every group [find_duplicates] stores has at least two members, and
    any two of its members have the same size and the same digest. *)
Theorem duplicate_groups_invariant `{StdHash} `{UnorderedIter}
    (fs : filesystem) (files : list FileInfo) (hash : string) (g : list FileInfo) :
  (find_duplicates fs files).1 !! hash = Some g →
  2 ≤ length g ∧
  ∀ m1 m2, m1 ∈ g → m2 ∈ g →
    fi_size m1 = fi_size m2 ∧ fi_hash m1 = fi_hash m2.
Proof.
  intros Hg. split.
  - apply find_duplicates_sound in Hg as (size & _ & Hlen & _). lia.
  - intros m1 m2. by apply group_members_agree with fs files hash.
Qed.

Lemma duplicate_groups_invariant_witness :
  (@find_duplicates poly_hash map_order tree_fs tree_catalog).1
    !! @digest poly_hash "hello" = Some tree_group ∧
  2 ≤ length tree_group ∧
  ∀ m1 m2, m1 ∈ tree_group → m2 ∈ tree_group →
    fi_size m1 = fi_size m2 ∧ fi_hash m1 = fi_hash m2.
Proof.
  assert ((@find_duplicates poly_hash map_order tree_fs tree_catalog).1
            !! @digest poly_hash "hello" = Some tree_group) as Hrun
    by (vm_compute; reflexivity).
  split; [exact Hrun|].
  exact (@duplicate_groups_invariant poly_hash map_order tree_fs tree_catalog
           (@digest poly_hash "hello") tree_group Hrun).
Defined.

(** C5: two files of different size are never members of one group; the
    digest starts with the length of the content, so contents of different
    length have different digests, and where the recorded sizes are the
    lengths of the contents two files of different size have different keys
    in the map of results. *)
Theorem different_sizes_never_grouped `{StdHash} `{UnorderedIter}
    (fs : filesystem) (files : list FileInfo) (f1 f2 : FileInfo) :
  fi_size f1 ≠ fi_size f2 →
  (∀ hash g, (find_duplicates fs files).1 !! hash = Some g →
     (∀ m, m ∈ g → ∃ f, f ∈ files ∧ m = mkFileInfo (fi_path f) (fi_size f) hash) ∧
     ¬ (mkFileInfo (fi_path f1) (fi_size f1) hash ∈ g ∧
        mkFileInfo (fi_path f2) (fi_size f2) hash ∈ g)) ∧
  (∀ c1 c2, String.length c1 ≠ String.length c2 → digest c1 ≠ digest c2) ∧
  (sizes_match fs files → f1 ∈ files → f2 ∈ files →
   ∀ h1 h2, generate_file_hash fs (fi_path f1) = Ok h1 →
            generate_file_hash fs (fi_path f2) = Ok h2 → h1 ≠ h2).
Proof.
  intros Hsize. split; [|split].
  - intros hash g Hg. split.
    + apply find_duplicates_sound in Hg as (size & _ & _ & ->).
      intros m (f & [Hsz Hf]%list_elem_of_filter & _ & ->)%elem_of_hashed_of.
      exists f. split; [done|]. by rewrite Hsz.
    + intros [Hm1 Hm2].
      by destruct (group_members_agree fs files hash g _ _ Hg Hm1 Hm2).
  - intros c1 c2 Hlen Heq. by apply Hlen, digest_length.
  - intros Hsizes Hf1 Hf2 h1 h2 Hh1 Hh2 <-. apply Hsize.
    eapply (digest_class_same_size fs files h1); [done|..];
      by apply list_elem_of_filter.
Qed.

Lemma different_sizes_never_grouped_witness :
  fi_size (mkFileInfo "r/b.txt" 5 "") ≠ fi_size (mkFileInfo "r/d.txt" 3 "") ∧
  sizes_match tree_fs tree_catalog ∧
  @digest poly_hash "hello" ≠ @digest poly_hash "hey".
Proof.
  assert (fi_size (mkFileInfo "r/b.txt" 5 "") ≠ fi_size (mkFileInfo "r/d.txt" 3 ""))
    as Hsize by (simpl; lia).
  split; [exact Hsize|]. split; [exact tree_sizes_match|].
  destruct (@different_sizes_never_grouped poly_hash map_order tree_fs tree_catalog
              (mkFileInfo "r/b.txt" 5 "") (mkFileInfo "r/d.txt" 3 "") Hsize)
    as (_ & _ & Hkeys).
  apply Hkeys.
  - exact tree_sizes_match.
  - vm_compute. left.
  - vm_compute. do 3 right. left.
  - reflexivity.
  - reflexivity.
Defined.

(** Files whose recorded sizes are not the lengths of their contents (the
    files of a pseudo file system report 0 or a page): four files of one
    content in two size buckets. *)
Definition pseudo_fs : filesystem :=
  <["p/a" := Regular (mkNode 1 (Some "1") (FsOk 0%Z))]>
  (<["p/b" := Regular (mkNode 2 (Some "1") (FsOk 0%Z))]>
  (<["s/a" := Regular (mkNode 3 (Some "1") (FsOk 0%Z))]>
  (<["s/b" := Regular (mkNode 4 (Some "1") (FsOk 0%Z))]> ∅))).

Definition pseudo_catalog : list FileInfo :=
  [mkFileInfo "p/a" 0 ""; mkFileInfo "p/b" 0 "";
   mkFileInfo "s/a" 4096 ""; mkFileInfo "s/b" 4096 ""].

(** C9, as stated, fails: on one file system and one catalog, two runs that
    walk their hash maps in different orders store different groups under
    the digest the two size buckets share; the bucket that comes later in the
    iteration overwrites the group of the earlier one. *)
Lemma mismatched_sizes_overwrite :
  (@find_duplicates poly_hash map_order pseudo_fs pseudo_catalog).1 =
    {[ @digest poly_hash "1" :=
         [mkFileInfo "p/a" 0 (@digest poly_hash "1");
          mkFileInfo "p/b" 0 (@digest poly_hash "1")] ]} ∧
  (@find_duplicates poly_hash reverse_order pseudo_fs pseudo_catalog).1 =
    {[ @digest poly_hash "1" :=
         [mkFileInfo "s/a" 4096 (@digest poly_hash "1");
          mkFileInfo "s/b" 4096 (@digest poly_hash "1")] ]} ∧
  ¬ option_Forall2 (≡ₚ)
      ((@find_duplicates poly_hash map_order pseudo_fs pseudo_catalog).1
         !! @digest poly_hash "1")
      ((@find_duplicates poly_hash reverse_order pseudo_fs pseudo_catalog).1
         !! @digest poly_hash "1").
Proof.
  assert ((@find_duplicates poly_hash map_order pseudo_fs pseudo_catalog).1 =
          {[ @digest poly_hash "1" :=
               [mkFileInfo "p/a" 0 (@digest poly_hash "1");
                mkFileInfo "p/b" 0 (@digest poly_hash "1")] ]}) as Hrun1
    by (vm_compute; reflexivity).
  assert ((@find_duplicates poly_hash reverse_order pseudo_fs pseudo_catalog).1 =
          {[ @digest poly_hash "1" :=
               [mkFileInfo "s/a" 4096 (@digest poly_hash "1");
                mkFileInfo "s/b" 4096 (@digest poly_hash "1")] ]}) as Hrun2
    by (vm_compute; reflexivity).
  split; [done|]. split; [done|].
  rewrite Hrun1, Hrun2, !lookup_singleton_eq. intros Hsame.
  inversion Hsame as [g1 g2 Hperm|]; subst.
  assert (mkFileInfo "p/a" 0 (@digest poly_hash "1") ∈
          [mkFileInfo "s/a" 4096 (@digest poly_hash "1");
           mkFileInfo "s/b" 4096 (@digest poly_hash "1")]) as Hin
    by (rewrite <-Hperm; left).
  repeat (apply elem_of_cons in Hin as [[=]|Hin]). by inversion Hin.
Qed.

(** C9, amended: where the recorded sizes are the lengths of the contents,
    two runs on one file system store the same digests, and under each
    digest the same members up to their order, whatever the order in which
    they discover the files and the orders in which they walk their hash
    maps. *)
Theorem find_duplicates_deterministic `{StdHash} (run1 run2 : UnorderedIter)
    (fs : filesystem) (files1 files2 : list FileInfo) (hash : string) :
  files1 ≡ₚ files2 →
  sizes_match fs files1 →
  option_Forall2 (≡ₚ)
    ((@find_duplicates _ run1 fs files1).1 !! hash)
    ((@find_duplicates _ run2 fs files2).1 !! hash).
Proof.
  intros Hperm Hsizes.
  assert (sizes_match fs files2) as Hsizes2.
  { intros f c Hf. apply Hsizes. by rewrite Hperm. }
  rewrite !find_duplicates_lookup by done.
  assert (digest_class fs files1 hash ≡ₚ digest_class fs files2 hash) as Hcls
    by (unfold digest_class; by rewrite Hperm).
  rewrite <-(Permutation_length Hcls).
  case_decide; constructor. by rewrite Hcls.
Qed.

Lemma find_duplicates_deterministic_witness :
  option_Forall2 (≡ₚ)
    ((@find_duplicates poly_hash map_order tree_fs tree_catalog).1
       !! @digest poly_hash "hello")
    ((@find_duplicates poly_hash reverse_order tree_fs (reverse tree_catalog)).1
       !! @digest poly_hash "hello").
Proof.
  apply (@find_duplicates_deterministic poly_hash map_order reverse_order).
  - symmetry. apply reverse_Permutation.
  - exact tree_sizes_match.
Defined.

(** * Facts about find_files *)

(** The regular files below an entry whose size can be read, the warnings
    for those whose size cannot, and the regular files altogether; each in
    the order of the walk, through the directories that can be opened. *)
Fixpoint cataloged (entry : dirent) : list FileInfo :=
  match entry with
  | File p (FsOk true) (FsOk size) => [mkFileInfo p size ""]
  | File _ _ _ => []
  | Directory _ (FsOk entries) => flat_map cataloged entries
  | Directory _ (FsError _) => []
  end.

Fixpoint size_warnings (entry : dirent) : list event :=
  match entry with
  | File p (FsOk true) (FsError _) => [EvErrorAccessing p]
  | File _ _ _ => []
  | Directory _ (FsOk entries) => flat_map size_warnings entries
  | Directory _ (FsError _) => []
  end.

Fixpoint regular_files (entry : dirent) : list string :=
  match entry with
  | File p (FsOk true) _ => [p]
  | File _ _ _ => []
  | Directory _ (FsOk entries) => flat_map regular_files entries
  | Directory _ (FsError _) => []
  end.

(** No directory below the entry fails to open and no type query fails:
    the iterator reaches the end. *)
Fixpoint walkable (entry : dirent) : Prop :=
  match entry with
  | File _ (FsOk _) _ => True
  | File _ (FsError _) _ => False
  | Directory _ (FsOk entries) =>
      (fix all (entries : list dirent) : Prop :=
         match entries with
         | [] => True
         | entry :: entries => walkable entry ∧ all entries
         end) entries
  | Directory _ (FsError _) => False
  end.

Section dirent_induction.
Context (P : dirent → Prop).
Context (HFile : ∀ p r s, P (File p r s)).
Context (HClosed : ∀ p msg, P (Directory p (FsError msg))).
Context (HOpen : ∀ p entries, Forall P entries → P (Directory p (FsOk entries))).

Fixpoint dirent_nested_ind (entry : dirent) : P entry :=
  match entry with
  | File p r s => HFile p r s
  | Directory p (FsError msg) => HClosed p msg
  | Directory p (FsOk entries) =>
      HOpen p entries
        ((fix all (entries : list dirent) : Forall P entries :=
            match entries with
            | [] => @List.Forall_nil _ P
            | entry :: entries =>
                @List.Forall_cons _ P entry entries (dirent_nested_ind entry) (all entries)
            end) entries)
  end.
End dirent_induction.

Lemma visit_Directory p entries acc :
  visit (Directory p (FsOk entries)) acc = visit_all entries acc.
Proof.
  simpl. revert acc. induction entries as [|e es IH]; intros acc; [done|].
  simpl. destruct (visit e acc) as [acc' [msg|]]; [done|]. apply IH.
Qed.

Lemma walkable_Directory p entries :
  walkable (Directory p (FsOk entries)) ↔ Forall walkable entries.
Proof.
  simpl. induction entries as [|e es IH]; [by split|].
  rewrite Forall_cons. by rewrite IH.
Qed.

(** What one entry adds to the catalog and to the warnings: a prefix of
    what the full walk below it would add, all of it when the walk does not
    fail, and an exception exactly when it does. *)
Definition visit_spec (entry : dirent) : Prop :=
  ∀ acc, ∃ found warned,
    (visit entry acc).1 = (acc.1 ++ found, acc.2 ++ warned) ∧
    found `prefix_of` cataloged entry ∧
    warned `prefix_of` size_warnings entry ∧
    (walkable entry → (visit entry acc).2 = None ∧
       found = cataloged entry ∧ warned = size_warnings entry) ∧
    ((visit entry acc).2 = None → walkable entry).

Lemma visit_all_spec entries :
  Forall visit_spec entries →
  ∀ acc, ∃ found warned,
    (visit_all entries acc).1 = (acc.1 ++ found, acc.2 ++ warned) ∧
    found `prefix_of` flat_map cataloged entries ∧
    warned `prefix_of` flat_map size_warnings entries ∧
    (Forall walkable entries → (visit_all entries acc).2 = None ∧
       found = flat_map cataloged entries ∧
       warned = flat_map size_warnings entries) ∧
    ((visit_all entries acc).2 = None → Forall walkable entries).
Proof.
  induction 1 as [|e es He _ IH]; intros acc.
  - exists [], []. simpl. rewrite !app_nil_r.
    split; [by destruct acc|]. by repeat split.
  - destruct (He acc) as (f1 & w1 & Hacc & Hf1 & Hw1 & Hok & Hnone).
    simpl. destruct (visit e acc) as [acc' [msg|]] eqn:Hvisit; simpl in *.
    + exists f1, w1. split; [done|].
      split; [by apply prefix_app_r|]. split; [by apply prefix_app_r|].
      split; [|done]. intros [Hwalk _]%Forall_cons. by destruct (Hok Hwalk).
    + destruct (Hok (Hnone eq_refl)) as (_ & -> & ->). subst acc'.
      destruct (IH (acc.1 ++ cataloged e, acc.2 ++ size_warnings e))
        as (f2 & w2 & Hacc2 & Hf2 & Hw2 & Hok2 & Hnone2).
      exists (cataloged e ++ f2), (size_warnings e ++ w2).
      rewrite Hacc2. simpl. rewrite !app_assoc.
      split; [done|]. split; [by apply prefix_app|]. split; [by apply prefix_app|].
      split.
      * intros [_ Hwalk]%Forall_cons. by destruct (Hok2 Hwalk) as (-> & -> & ->).
      * intros Hend. apply Forall_cons. split; [by apply Hnone|by apply Hnone2].
Qed.

Lemma visit_correct entry : visit_spec entry.
Proof.
  induction entry as [p r s|p msg|p entries IH] using dirent_nested_ind; intros acc.
  - destruct r as [[|]|msg], s as [size|msg']; simpl;
      try (exists [], []; rewrite !app_nil_r; destruct acc;
           repeat split; done || apply prefix_nil).
    + exists [mkFileInfo p size ""], []. rewrite app_nil_r. by repeat split.
    + exists [], [EvErrorAccessing p]. rewrite app_nil_r. by repeat split.
  - exists [], []. simpl. rewrite !app_nil_r. destruct acc.
    repeat split; done || apply prefix_nil.
  - rewrite visit_Directory.
    destruct (visit_all_spec entries IH acc)
      as (found & warned & Hacc & Hf & Hw & Hok & Hnone).
    exists found, warned. rewrite walkable_Directory.
    change (cataloged (Directory p (FsOk entries)))
      with (flat_map cataloged entries).
    change (size_warnings (Directory p (FsOk entries)))
      with (flat_map size_warnings entries).
    by split_and!.
Qed.

Lemma elem_of_flat_map {A B} (f : A → list B) (l : list A) (y : B) :
  y ∈ flat_map f l ↔ ∃ x, x ∈ l ∧ y ∈ f x.
Proof.
  rewrite list_elem_of_In, in_flat_map.
  by setoid_rewrite list_elem_of_In.
Qed.

Lemma regular_files_accounted entry p :
  p ∈ regular_files entry →
  (∃ size, mkFileInfo p size "" ∈ cataloged entry) ∨
  EvErrorAccessing p ∈ size_warnings entry.
Proof.
  induction entry as [q r s|q msg|q entries IH] using dirent_nested_ind.
  - destruct r as [[|]|?], s as [size|?]; simpl; try by inversion 1.
    + intros ->%list_elem_of_singleton. left. exists size. left.
    + intros ->%list_elem_of_singleton. right. left.
  - by inversion 1.
  - simpl. rewrite elem_of_flat_map.
    intros (e & He & Hp). rewrite Forall_forall in IH.
    destruct (IH e He Hp) as [[size Hsize]|Hwarn].
    + left. exists size. apply elem_of_flat_map. by exists e.
    + right. apply elem_of_flat_map. by exists e.
Qed.

Lemma find_files_spec w dir :
  let root := Directory dir (w_tree w dir) in
  ∃ found warned,
    found `prefix_of` cataloged root ∧ warned `prefix_of` size_warnings root ∧
    ((walkable root ∧ find_files w dir = (cataloged root, size_warnings root)) ∨
     (¬ walkable root ∧
      ∃ msg, find_files w dir = (found, warned ++ [EvFilesystemError msg]))).
Proof.
  intros root. unfold find_files. fold root.
  destruct (visit_correct root ([], [])) as (found & warned & Hacc & Hf & Hw & Hok & Hnone).
  exists found, warned. split; [done|]. split; [done|].
  destruct (visit root ([], [])) as [acc [msg|]]; simpl in *.
  - right. split; [by intros [[=] _]%Hok|]. exists msg. by rewrite Hacc.
  - left. split; [by apply Hnone|].
    destruct (Hok (Hnone eq_refl)) as (_ & -> & ->). by rewrite Hacc.
Qed.

(** ** The walk, entry by entry *)

(** The entries the walk meets, in its order: the entries that are no
    directories, and the directories that cannot be opened. *)
Fixpoint leaves (entry : dirent) : list dirent :=
  match entry with
  | File _ _ _ => [entry]
  | Directory _ (FsOk entries) => flat_map leaves entries
  | Directory _ (FsError _) => [entry]
  end.

(** The exception with which an entry ends the walk: that of its type query
    or that of opening it. *)
Definition failure (entry : dirent) : option string :=
  match entry with
  | File _ (FsError msg) _ => Some msg
  | Directory _ (FsError msg) => Some msg
  | _ => None
  end.

(** The loop over a flat list of entries: it stops at the first one that
    fails. *)
Fixpoint walk (entries : list dirent) (acc : list FileInfo * list event)
    : (list FileInfo * list event) * option string :=
  match entries with
  | [] => (acc, None)
  | entry :: entries =>
      match failure entry with
      | Some msg => (acc, Some msg)
      | None => walk entries (acc.1 ++ cataloged entry, acc.2 ++ size_warnings entry)
      end
  end.

Lemma walk_app l1 l2 : ∀ acc,
  walk (l1 ++ l2) acc =
    match walk l1 acc with
    | (acc', None) => walk l2 acc'
    | aborted => aborted
    end.
Proof.
  induction l1 as [|entry l1 IH]; intros acc; simpl; [by destruct acc|].
  destruct (failure entry); [done|]. apply IH.
Qed.

Lemma visit_all_walk entries :
  Forall (λ entry, ∀ acc, visit entry acc = walk (leaves entry) acc) entries →
  ∀ acc, visit_all entries acc = walk (flat_map leaves entries) acc.
Proof.
  induction 1 as [|entry entries Hentry _ IH]; intros acc; [done|].
  simpl. rewrite walk_app, Hentry.
  destruct (walk (leaves entry) acc) as [acc' [msg|]]; [done|]. apply IH.
Qed.

Lemma visit_walk entry : ∀ acc, visit entry acc = walk (leaves entry) acc.
Proof.
  induction entry as [p r s|p msg|p entries IH] using dirent_nested_ind; intros acc.
  - destruct r as [[|]|msg], s as [size|msg']; simpl; rewrite ?app_nil_r;
      by destruct acc.
  - done.
  - rewrite visit_Directory. by apply visit_all_walk.
Qed.

Lemma walk_through entries : ∀ acc,
  Forall (λ entry, failure entry = None) entries →
  walk entries acc =
    ((acc.1 ++ flat_map cataloged entries, acc.2 ++ flat_map size_warnings entries),
     None).
Proof.
  induction entries as [|entry entries IH]; intros acc.
  - intros _. simpl. rewrite !app_nil_r. by destruct acc.
  - intros [Hentry Hrest]%Forall_cons. simpl. rewrite Hentry, IH by done.
    simpl. by rewrite !app_assoc.
Qed.

Lemma walk_stops before failing after msg acc :
  Forall (λ entry, failure entry = None) before →
  failure failing = Some msg →
  walk (before ++ failing :: after) acc =
    ((acc.1 ++ flat_map cataloged before, acc.2 ++ flat_map size_warnings before),
     Some msg).
Proof.
  intros Hbefore Hfailing. rewrite walk_app, walk_through by done.
  simpl. by rewrite Hfailing.
Qed.

Lemma first_failure entries :
  Forall (λ entry, failure entry = None) entries ∨
  ∃ before failing after msg,
    entries = before ++ failing :: after ∧
    Forall (λ entry, failure entry = None) before ∧
    failure failing = Some msg.
Proof.
  induction entries as [|entry entries [IH|(before & failing & after & msg & -> & Hb & Hf)]].
  - by left.
  - destruct (failure entry) as [msg|] eqn:Hentry.
    + right. exists [], entry, entries, msg. by split_and!.
    + left. by constructor.
  - destruct (failure entry) as [msg'|] eqn:Hentry.
    + right. exists [], entry, (before ++ failing :: after), msg'. by split_and!.
    + right. exists (entry :: before), failing, after, msg.
      split_and!; [done|by constructor|done].
Qed.

Lemma walkable_leaves entry :
  walkable entry ↔ Forall (λ entry, failure entry = None) (leaves entry).
Proof.
  induction entry as [p r s|p msg|p entries IH] using dirent_nested_ind.
  - destruct r as [[|]|msg]; simpl; rewrite Forall_singleton; simpl; naive_solver.
  - simpl. rewrite Forall_singleton. simpl. naive_solver.
  - rewrite walkable_Directory. simpl.
    induction IH as [|entry entries Hentry _ IHentries]; [done|].
    simpl. by rewrite Forall_cons, Forall_app, Hentry, IHentries.
Qed.

(** * The claim about find_files *)

(** A tree in which a directory that cannot be opened stands between two
    regular files. *)
Definition locked_entries : list dirent :=
  [File "r/a.txt" (FsOk true) (FsOk 5%N);
   Directory "r/secret" (FsError "Permission denied");
   File "r/b.txt" (FsOk true) (FsOk 5%N)].

Definition locked_world : World :=
  {| w_status p := FsOk (if decide (p = "r") then ft_directory else ft_not_found);
     w_tree p :=
       if decide (p = "r") then FsOk locked_entries
       else FsError ("cannot open directory: " +:+ p);
     w_remove_error _ := None;
     w_link_error _ _ := None;
     w_what := libstdcxx_what |}.

(** C2, as stated, fails: the directory [r/secret] cannot be read, and the
    regular file [r/b.txt], which the walk would reach after it, is missing
    from the catalog. *)
Lemma find_files_stops_at_unreadable_directory :
  "r/b.txt" ∈ regular_files (Directory "r" (w_tree locked_world "r")) ∧
  find_files locked_world "r" =
    ([mkFileInfo "r/a.txt" 5 ""], [EvFilesystemError "Permission denied"]) ∧
  ("r/b.txt" ∉ fi_path <$> (find_files locked_world "r").1).
Proof.
  split; [|split].
  - vm_compute. right. left.
  - reflexivity.
  - vm_compute. by intros [=]%list_elem_of_singleton.
Qed.

(** C2, amended: a regular file whose size cannot be read is the only one
    skipped for it, with a warning, and when the walk itself does not fail
    every regular file is in the catalog or has its warning.  When opening a
    directory or asking for the type of an entry fails, the walk ends there
    with one warning: the catalog holds exactly the regular files met before
    the first entry that fails (those whose size could be read, in the order
    of the walk), the warnings are those of the files met before it, and
    nothing met after it is looked at. *)
Theorem find_files_partial_failure (w : World) (dir : string) :
  let root := Directory dir (w_tree w dir) in
  (find_files w dir).1 `prefix_of` cataloged root ∧
  (walkable root →
     find_files w dir = (cataloged root, size_warnings root) ∧
     ∀ p, p ∈ regular_files root →
       (∃ size, mkFileInfo p size "" ∈ (find_files w dir).1) ∨
       EvErrorAccessing p ∈ (find_files w dir).2) ∧
  (∀ before failing after msg,
     leaves root = before ++ failing :: after →
     Forall (λ entry, failure entry = None) before →
     failure failing = Some msg →
     find_files w dir =
       (flat_map cataloged before,
        flat_map size_warnings before ++ [EvFilesystemError msg])) ∧
  (¬ walkable root →
     ∃ before failing after msg,
       leaves root = before ++ failing :: after ∧
       Forall (λ entry, failure entry = None) before ∧
       failure failing = Some msg).
Proof.
  intros root. split_and!.
  - destruct (find_files_spec w dir)
      as (found & warned & Hf & _ & [[_ Hrun]|[_ [msg Hrun]]]);
      fold root in Hf, Hrun; by rewrite Hrun.
  - intros Hwalk.
    destruct (find_files_spec w dir)
      as (found & warned & _ & _ & [[_ Hrun]|[Hstop _]]); [|done].
    fold root in Hrun. rewrite Hrun. split; [done|]. apply regular_files_accounted.
  - intros before failing after msg Hleaves Hbefore Hfailing.
    unfold find_files. fold root.
    by rewrite visit_walk, Hleaves, (walk_stops before failing after msg).
  - intros Hstop. destruct (first_failure (leaves root)) as [Hok|Hfail]; [|done].
    destruct Hstop. by apply walkable_leaves.
Qed.

(** The tree of the example above: the walk ends at [r/secret], with the
    file met before it in the catalog and the file after it not. *)
Lemma find_files_partial_failure_example :
  leaves (Directory "r" (w_tree locked_world "r")) =
    [File "r/a.txt" (FsOk true) (FsOk 5%N)] ++
    Directory "r/secret" (FsError "Permission denied") ::
    [File "r/b.txt" (FsOk true) (FsOk 5%N)] ∧
  find_files locked_world "r" =
    (flat_map cataloged [File "r/a.txt" (FsOk true) (FsOk 5%N)],
     flat_map size_warnings [File "r/a.txt" (FsOk true) (FsOk 5%N)] ++
     [EvFilesystemError "Permission denied"]).
Proof.
  split; [reflexivity|].
  destruct (find_files_partial_failure locked_world "r") as (_ & _ & Hstops & _).
  apply (Hstops [File "r/a.txt" (FsOk true) (FsOk 5%N)]
           (Directory "r/secret" (FsError "Permission denied"))
           [File "r/b.txt" (FsOk true) (FsOk 5%N)] "Permission denied");
    [reflexivity| |reflexivity].
  by repeat constructor.
Defined.

(** * Facts about handle_duplicates *)

(** One turn of the inner loop never throws, changes the file system at the
    name of the duplicate only, and leaves there nothing, what was there, or
    what the original names. *)
Lemma process_duplicate_run w action original it st :
  ∃ fs' evs,
    process_duplicate w action original it st =
      (Ok tt, mkState fs' (st_out st ++ EvDuplicate it :: evs)) ∧
    (∀ p, p ≠ it → fs' !! p = st_fs st !! p) ∧
    (fs' !! it = None ∨ fs' !! it = st_fs st !! it ∨
     fs' !! it = st_fs st !! original) ∧
    (∀ p, (EvOriginal p ∉ evs) ∧ (EvDuplicate p ∉ evs)).
Proof.
  unfold process_duplicate, bind, emit, catch_filesystem_error, fs_remove,
    create_hard_link, ret.
  destruct st as [fs out]. simpl.
  repeat case_decide;
    repeat (case_match; simplify_eq/=);
    (eexists _, _; split; [rewrite <-?app_assoc; simpl; reflexivity|]);
    (split_and!;
     [intros; by rewrite ?lookup_insert_ne, ?lookup_delete_ne by done
     | | intros p; split; set_solver]);
    rewrite ?lookup_insert_eq, ?lookup_delete_eq; auto.
  match goal with
  | Hnd : delete it fs !! original = Some _ |- _ =>
      apply lookup_delete_Some in Hnd as [_ ->]; auto
  end.
Qed.

Lemma for_each_cons {A} (body : A → M unit) x l st :
  for_each body (x :: l) st =
    match body x st with
    | (Ok _, st') => for_each body l st'
    | (Throw e, st') => (Throw e, st')
    end.
Proof. done. Qed.

Lemma for_each_app {A} (body : A → M unit) l1 l2 st :
  for_each body (l1 ++ l2) st =
    match for_each body l1 st with
    | (Ok _, st') => for_each body l2 st'
    | (Throw e, st') => (Throw e, st')
    end.
Proof.
  revert st. induction l1 as [|x l1 IH]; intros st; [done|].
  rewrite <-app_comm_cons, !for_each_cons.
  destruct (body x st) as [[[]|e] st']; [|done]. apply IH.
Qed.

(** The inner loop: it never throws, changes the file system at the names
    of the duplicates only, and gives no name to what had none. *)
Lemma for_each_process_run w action original rest : ∀ st,
  ∃ fs' evs,
    for_each (process_duplicate w action original) rest st =
      (Ok tt, mkState fs' (st_out st ++ evs)) ∧
    (∀ p, p ∉ rest → fs' !! p = st_fs st !! p) ∧
    (∀ p entry, fs' !! p = Some entry → ∃ q, st_fs st !! q = Some entry) ∧
    (∀ p, EvOriginal p ∉ evs) ∧
    (∀ p, EvDuplicate p ∈ evs ↔ p ∈ rest).
Proof.
  induction rest as [|it rest IH]; intros st.
  - exists (st_fs st), []. rewrite app_nil_r. destruct st.
    split_and!; [done|done|eauto|set_solver|set_solver].
  - destruct (process_duplicate_run w action original it st)
      as (fs1 & evs1 & Hrun1 & Hframe1 & Hit & Hevs1).
    destruct (IH (mkState fs1 (st_out st ++ EvDuplicate it :: evs1)))
      as (fs2 & evs2 & Hrun2 & Hframe2 & Hnodes2 & Horig2 & Hdup2).
    exists fs2, (EvDuplicate it :: evs1 ++ evs2).
    rewrite for_each_cons, Hrun1, Hrun2. simpl in *. split_and!.
    + by rewrite <-app_assoc.
    + intros p [Hp1 Hp2]%not_elem_of_cons.
      by rewrite Hframe2, Hframe1.
    + intros p nd [q Hq]%Hnodes2. destruct (decide (q = it)) as [->|Hne].
      * destruct Hit as [Hit|[Hit|Hit]]; rewrite Hit in Hq; eauto. done.
      * rewrite Hframe1 in Hq by done. eauto.
    + intros p. rewrite not_elem_of_cons, not_elem_of_app.
      split; [done|]. split; [apply Hevs1|apply Horig2].
    + intros p. rewrite !elem_of_cons, elem_of_app, Hdup2.
      split; [|naive_solver].
      intros [[= ->]|[Hin|?]]; [by left| |by right].
      by destruct (Hevs1 p) as [_ ?].
Qed.

(** ** Reading the modification times *)

Definition mtimes_readable (w : World) (fs : filesystem) (files : list FileInfo) : Prop :=
  ∀ f, f ∈ files → ∃ t, last_write_time w fs (fi_path f) = Ok t.

Definition mtime_of (w : World) (fs : filesystem) (p : string) : Z :=
  match last_write_time w fs p with Ok t => t | Throw _ => 0%Z end.

Lemma mtimes_readable_or_not w fs files :
  mtimes_readable w fs files ∨
  ∃ f, f ∈ files ∧ is_throw (last_write_time w fs (fi_path f)).
Proof.
  induction files as [|f files [IH|(f' & Hin & Hthrow)]].
  - left. by intros f Hf%elem_of_nil.
  - destruct (last_write_time w fs (fi_path f)) as [t|e] eqn:Hf.
    + left. intros f' [->|Hin]%elem_of_cons; eauto.
    + right. exists f. split; [left|]. by rewrite Hf.
  - right. exists f'. split; [by right|done].
Qed.

Lemma mtime_less_readable w fs files a b :
  mtimes_readable w fs files →
  a ∈ fi_path <$> files → b ∈ fi_path <$> files →
  mtime_less w fs a b = Ok (bool_decide (mtime_of w fs a < mtime_of w fs b)%Z).
Proof.
  intros Hread (fa & -> & [ta Ha]%Hread)%list_elem_of_fmap
    (fb & -> & [tb Hb]%Hread)%list_elem_of_fmap.
  unfold mtime_less, mtime_of. by rewrite Ha, Hb.
Qed.

Lemma mtime_less_unreadable w fs x y :
  is_throw (last_write_time w fs x) →
  is_throw (mtime_less w fs x y) ∧ is_throw (mtime_less w fs y x).
Proof.
  unfold mtime_less. intros Hx.
  destruct (last_write_time w fs x); [done|].
  by destruct (last_write_time w fs y).
Qed.

(** ** One group *)

Lemma handle_group_unfold `{StdSort} w action hash files st :
  handle_group w action (hash, files) st =
    let st1 := mkState (st_fs st) (st_out st ++ [EvGroup (length files) hash]) in
    match std_sort (mtime_less w (st_fs st)) (fi_path <$> files) with
    | Throw e => (Throw e, st1)
    | Ok [] => (Ok tt, st1)
    | Ok (original :: rest) =>
        for_each (process_duplicate w action original) rest
          (mkState (st_fs st)
             (st_out st ++ [EvGroup (length files) hash; EvOriginal original]))
    end.
Proof.
  unfold handle_group, bind, emit, get_fs, lift_result, ret. simpl.
  destruct (std_sort _ _) as [[|original rest]|e]; try done.
  simpl. by rewrite <-app_assoc.
Qed.

(** When every modification time can be read, the group is sorted, its
    head is a member than which no member is older, and the rest is handed
    to the inner loop. *)
Lemma handle_group_sorted `{!StdSortSpec sorter} w action hash files st :
  files ≠ [] →
  mtimes_readable w (st_fs st) files →
  ∃ original rest,
    std_sort (mtime_less w (st_fs st)) (fi_path <$> files) = Ok (original :: rest) ∧
    original :: rest ≡ₚ fi_path <$> files ∧
    (∀ p, p ∈ fi_path <$> files →
       (mtime_of w (st_fs st) original ≤ mtime_of w (st_fs st) p)%Z) ∧
    handle_group w action (hash, files) st =
      for_each (process_duplicate w action original) rest
        (mkState (st_fs st)
           (st_out st ++ [EvGroup (length files) hash; EvOriginal original])).
Proof.
  intros Hne Hread.
  destruct (std_sort_sorts (mtime_of w (st_fs st)) (mtime_less w (st_fs st))
              (fi_path <$> files)) as (sorted & Hsort & Hperm & Hsorted).
  { intros a b. by apply mtime_less_readable. }
  destruct sorted as [|original rest].
  { apply Permutation_nil in Hperm. by destruct files. }
  exists original, rest. split; [done|]. split; [done|]. split.
  - intros p Hp. rewrite <-Hperm in Hp.
    apply StronglySorted_inv in Hsorted as [_ Hall].
    apply elem_of_cons in Hp as [->|Hp]; [lia|].
    by apply (proj1 (Forall_forall _ _) Hall).
  - by rewrite handle_group_unfold, Hsort.
Qed.

(** When one modification time cannot be read, the exception leaves the
    group before an original is chosen. *)
Lemma handle_group_unreadable `{!StdSortSpec sorter} w action hash files st f :
  1 < length files → f ∈ files →
  is_throw (last_write_time w (st_fs st) (fi_path f)) →
  ∃ e, handle_group w action (hash, files) st =
         (Throw e, mkState (st_fs st)
                     (st_out st ++ [EvGroup (length files) hash])).
Proof.
  intros Hlen Hf Hthrow.
  pose proof (std_sort_throws (mtime_less w (st_fs st)) (fi_path <$> files)
                (fi_path f)) as Hsort.
  rewrite handle_group_unfold.
  destruct (std_sort _ _) as [sorted|e]; [|by exists e].
  destruct Hsort; [by apply list_elem_of_fmap_2|by rewrite length_fmap|].
  intros y _. by apply mtime_less_unreadable.
Qed.

(** ** Symbolic links *)

(** The paths met while the symbolic links at a path are followed. *)
Inductive reaches (fs : filesystem) : string → string → Prop :=
| reaches_here p : reaches fs p p
| reaches_link p target q :
    fs !! p = Some (Symlink target) → reaches fs target q → reaches fs p q.

Lemma follow_mono fs nd : ∀ n p,
  follow n fs p = inr nd → follow (S n) fs p = inr nd.
Proof.
  induction n as [|n IH]; intros p; simpl; destruct (fs !! p) as [[nd'|target]|];
    try done.
  apply IH.
Qed.

Lemma follow_reaches fs p q nd :
  reaches fs p q → ∀ n, follow n fs p = inr nd → follow n fs q = inr nd.
Proof.
  induction 1 as [p|p target q Hp _ IH]; intros n; [done|].
  destruct n as [|n]; simpl; rewrite Hp; [done|].
  intros Hfollow. by apply follow_mono, IH.
Qed.

Lemma follow_frame fs fs' : ∀ n p,
  (∀ q, reaches fs p q → fs' !! q = fs !! q) →
  follow n fs' p = follow n fs p.
Proof.
  induction n as [|n IH]; intros p Hagree; simpl;
    rewrite (Hagree p (reaches_here fs p));
    destruct (fs !! p) as [[nd|target]|] eqn:Hp; try done.
  apply IH. intros q Hq. apply Hagree. by eapply reaches_link.
Qed.

Lemma reaches_frame fs fs' p q :
  reaches fs' p q →
  (∀ q, reaches fs p q → fs' !! q = fs !! q) →
  reaches fs p q.
Proof.
  induction 1 as [p|p target q Hp _ IH]; intros Hagree; [constructor|].
  rewrite (Hagree p (reaches_here fs p)) in Hp.
  apply (reaches_link fs p target q Hp). apply IH.
  intros q' Hq'. apply Hagree. by eapply reaches_link.
Qed.

Lemma follow_ends fs nd : ∀ n p,
  follow n fs p = inr nd → ∃ q, fs !! q = Some (Regular nd).
Proof.
  induction n as [|n IH]; intros p; simpl;
    destruct (fs !! p) as [[nd'|target]|] eqn:Hp; try done.
  - intros [= <-]. by exists p.
  - intros [= <-]. by exists p.
  - apply IH.
Qed.

Lemma resolve_is_Some fs p nd : resolve fs p = inr nd → is_Some (fs !! p).
Proof. unfold resolve. simpl. by destruct (fs !! p). Qed.

Lemma read_file_resolve fs p content :
  read_file fs p = Some content ↔
  ∃ nd, resolve fs p = inr nd ∧ nd_content nd = Some content.
Proof.
  unfold read_file. destruct (resolve fs p) as [code|nd]; naive_solver.
Qed.

Lemma last_write_time_resolve w fs1 fs2 p :
  resolve fs1 p = resolve fs2 p → last_write_time w fs1 p = last_write_time w fs2 p.
Proof. unfold last_write_time. by intros ->. Qed.

(** ** All groups *)

Definition all_paths (groups : list (string * list FileInfo)) : list string :=
  flat_map (λ g, fi_path <$> g.2) groups.

(** No member of a group leads through a member of a group that is handled
    before it. *)
Fixpoint separated (fs : filesystem) (groups : list (string * list FileInfo))
    : Prop :=
  match groups with
  | [] => True
  | g :: groups =>
      (∀ p q, p ∈ all_paths groups → q ∈ fi_path <$> g.2 → ¬ reaches fs p q) ∧
      separated fs groups
  end.

(** What a change at members of one group leaves as it was for the groups
    that are handled after it. *)
Lemma separated_frame fs fs' (changed : list string) groups :
  (∀ q, q ∉ changed → fs' !! q = fs !! q) →
  (∀ p q, p ∈ all_paths groups → q ∈ changed → ¬ reaches fs p q) →
  separated fs groups → separated fs' groups.
Proof.
  intros Hagree. induction groups as [|g groups IH]; [done|].
  change (all_paths (g :: groups)) with ((fi_path <$> g.2) ++ all_paths groups).
  intros Hfar [Hsep Hrest]. split.
  - intros p q Hp Hq Hreach. apply (Hsep p q Hp Hq).
    apply (reaches_frame fs fs' p q Hreach).
    intros q' Hq'. apply Hagree. intros Hin.
    apply (Hfar p q'); [apply elem_of_app; by right|done..].
  - apply IH; [|done]. intros p q Hp. apply Hfar, elem_of_app. by right.
Qed.

Lemma later_groups_frame w fs fs' g groups (changed : list string) :
  (∀ q, q ∉ changed → fs' !! q = fs !! q) →
  (∀ q, q ∈ changed → q ∈ fi_path <$> g.2) →
  separated fs (g :: groups) →
  separated fs' groups ∧
  ∀ p, p ∈ all_paths groups →
    fs' !! p = fs !! p ∧ resolve fs' p = resolve fs p ∧
    last_write_time w fs' p = last_write_time w fs p.
Proof.
  intros Hagree Hchanged [Hsep Hrest].
  assert (∀ p q, p ∈ all_paths groups → q ∈ changed → ¬ reaches fs p q) as Hfar.
  { intros p q Hp Hq. by apply Hsep, Hchanged. }
  split; [by eapply separated_frame|].
  intros p Hp.
  assert (∀ q, reaches fs p q → fs' !! q = fs !! q) as Hchain.
  { intros q Hq. apply Hagree. intros Hin. by apply (Hfar p q). }
  assert (resolve fs' p = resolve fs p) as Hresolve by by apply follow_frame.
  split; [apply Hchain; constructor|]. split; [done|].
  by apply last_write_time_resolve.
Qed.

(** The loop over the groups, whether it ends or is left by an exception:
    the originals it announced and the duplicates it announced are distinct
    occurrences of member paths, and the file system differs at announced
    duplicates only. *)
Lemma handle_groups_run `{!StdSortSpec sorter} w action groups :
  Forall (λ g, 1 < length g.2) groups →
  ∀ st, ∃ r fs' evs originals superseded,
    for_each (handle_group w action) groups st =
      (r, mkState fs' (st_out st ++ evs)) ∧
    originals ++ superseded ⊆+ all_paths groups ∧
    (∀ p, p ∉ superseded → fs' !! p = st_fs st !! p) ∧
    (∀ p entry, fs' !! p = Some entry → ∃ q, st_fs st !! q = Some entry) ∧
    (∀ p, EvOriginal p ∈ evs ↔ p ∈ originals) ∧
    (∀ p, EvDuplicate p ∈ evs ↔ p ∈ superseded).
Proof.
  induction 1 as [|[hash files] groups Hlen _ IH]; intros st.
  { exists (Ok tt), (st_fs st), [], [], []. rewrite app_nil_r. destruct st.
    split_and!; [done|done|done|eauto|set_solver|set_solver]. }
  simpl in Hlen. rewrite for_each_cons.
  destruct (mtimes_readable_or_not w (st_fs st) files) as [Hread|(f & Hf & Hthrow)].
  - destruct (handle_group_sorted w action hash files st)
      as (original & rest & _ & Hperm & _ & ->);
      [intros ->; simpl in Hlen; lia|done|].
    destruct (for_each_process_run w action original rest
                (mkState (st_fs st)
                   (st_out st ++ [EvGroup (length files) hash; EvOriginal original])))
      as (fs1 & evs1 & -> & Hframe1 & Hnodes1 & Horig1 & Hdup1).
    simpl.
    destruct (IH (mkState fs1
                    ((st_out st ++ [EvGroup (length files) hash; EvOriginal original])
                     ++ evs1)))
      as (r & fs2 & evs2 & originals & superseded & -> & Hsub & Hframe2 &
          Hnodes2 & Horig2 & Hdup2).
    simpl in *.
    exists r, fs2, ([EvGroup (length files) hash; EvOriginal original] ++ evs1 ++ evs2),
      (original :: originals), (rest ++ superseded).
    split_and!.
    + by rewrite !app_assoc.
    + assert ((original :: originals) ++ rest ++ superseded ≡ₚ
              (original :: rest) ++ originals ++ superseded) as ->.
      { simpl. constructor. rewrite !app_assoc. f_equiv. apply Permutation_app_comm. }
      change (all_paths ((hash, files) :: groups))
        with ((fi_path <$> files) ++ all_paths groups).
      rewrite <-Hperm. by apply submseteq_skips_l.
    + intros p [Hp1 Hp2]%not_elem_of_app. by rewrite Hframe2, Hframe1.
    + intros p nd [q Hq]%Hnodes2. by apply Hnodes1 in Hq.
    + intros p. simpl. rewrite !elem_of_cons, elem_of_app, Horig2.
      split; [|naive_solver].
      intros [[=]|[[= ->]|[Hin|?]]]; [by left| |by right]. by apply Horig1 in Hin.
    + intros p. simpl. rewrite !elem_of_cons, !elem_of_app, Hdup1, Hdup2.
      naive_solver.
  - destruct (handle_group_unreadable w action hash files st f) as [e ->];
      [done..|].
    exists (Throw e), (st_fs st), [EvGroup (length files) hash], [], [].
    split_and!; [done|apply submseteq_nil_l|done|eauto|set_solver|set_solver].
Qed.

(** The loop ends when the modification time of every member of every
    group can be read and no member leads through a member of a group
    handled before it. *)
Lemma handle_groups_ok `{!StdSortSpec sorter} w action groups :
  Forall (λ g, 1 < length g.2) groups →
  ∀ st,
    separated (st_fs st) groups →
    (∀ p, p ∈ all_paths groups → ∃ t, last_write_time w (st_fs st) p = Ok t) →
    (for_each (handle_group w action) groups st).1 = Ok tt.
Proof.
  induction 1 as [|[hash files] groups Hlen _ IH]; intros st Hsep Hread; [done|].
  simpl in Hlen.
  change (all_paths ((hash, files) :: groups))
    with ((fi_path <$> files) ++ all_paths groups) in *.
  rewrite for_each_cons.
  destruct (handle_group_sorted w action hash files st)
    as (original & rest & _ & Hperm & _ & ->);
    [intros ->; simpl in Hlen; lia| |].
  { intros f Hf. apply Hread, elem_of_app. left. by apply list_elem_of_fmap_2. }
  destruct (for_each_process_run w action original rest
              (mkState (st_fs st)
                 (st_out st ++ [EvGroup (length files) hash; EvOriginal original])))
    as (fs1 & evs1 & -> & Hframe1 & _ & _ & _).
  cbn [st_fs st_out] in *.
  destruct (later_groups_frame w (st_fs st) fs1 (hash, files) groups rest Hframe1)
    as [Hsep1 Hlater]; [|done|].
  { intros q Hq. cbn [snd]. rewrite <-Hperm. by right. }
  apply IH; cbn [st_fs]; [done|].
  intros p Hp. destruct (Hlater p Hp) as (_ & _ & ->).
  apply Hread, elem_of_app. by right.
Qed.

(** ** The groups find_duplicates hands over *)

Lemma NoDup_flat_map {A B} (f : A → list B) (l : list A) :
  (∀ x, x ∈ l → NoDup (f x)) →
  (∀ i j x y z, l !! i = Some x → l !! j = Some y → z ∈ f x → z ∈ f y → i = j) →
  NoDup (flat_map f l).
Proof.
  induction l as [|a l IH]; intros Heach Hdisj; simpl; [constructor|].
  apply NoDup_app. split_and!.
  - apply Heach. left.
  - intros z Hz (y & [j Hj]%list_elem_of_lookup_1 & Hzy)%elem_of_flat_map.
    by specialize (Hdisj 0 (S j) a y z eq_refl Hj Hz Hzy).
  - apply IH; [intros; apply Heach; by right|].
    intros i j x y z Hi Hj Hx Hy.
    by specialize (Hdisj (S i) (S j) x y z Hi Hj Hx Hy) as [= ->].
Qed.

Lemma find_duplicates_groups_long `{StdHash} `{UnorderedIter} fs files :
  Forall (λ g, 1 < length g.2) (iterate (find_duplicates fs files).1).
Proof.
  apply Forall_forall. intros [hash g] Hin%iterate_elem_of.
  by apply find_duplicates_sound in Hin as (size & _ & Hlen & _).
Qed.

Lemma find_duplicates_member `{StdHash} `{UnorderedIter} fs files hash g p :
  (find_duplicates fs files).1 !! hash = Some g → p ∈ fi_path <$> g →
  p ∈ fi_path <$> files ∧ generate_file_hash fs p = Ok hash.
Proof.
  intros (size & _ & _ & ->)%find_duplicates_sound
    (m & -> & (f & [_ Hf]%list_elem_of_filter & Hh & ->)%elem_of_hashed_of)%list_elem_of_fmap.
  simpl. split; [by apply list_elem_of_fmap_2|done].
Qed.

Lemma find_duplicates_group_NoDup `{StdHash} `{UnorderedIter} fs files hash g :
  NoDup (fi_path <$> files) →
  (find_duplicates fs files).1 !! hash = Some g → NoDup (fi_path <$> g).
Proof.
  intros Hnodup (size & _ & _ & ->)%find_duplicates_sound.
  unfold hashed_of. rewrite <-list_fmap_compose.
  apply (sublist_NoDup _ (fi_path <$> files)); [done|].
  apply (fmap_sublist fi_path). etrans; apply sublist_filter.
Qed.

Lemma find_duplicates_paths_NoDup `{StdHash} `{UnorderedIter} fs files :
  NoDup (fi_path <$> files) →
  NoDup (all_paths (iterate (find_duplicates fs files).1)).
Proof.
  intros Hnodup. apply NoDup_flat_map.
  - intros [hash g] Hin%iterate_elem_of. by eapply find_duplicates_group_NoDup.
  - intros i j [h1 g1] [h2 g2] p Hi Hj Hp1 Hp2.
    pose proof (list_elem_of_lookup_2 _ _ _ Hi) as Hg1%iterate_elem_of.
    pose proof (list_elem_of_lookup_2 _ _ _ Hj) as Hg2%iterate_elem_of.
    destruct (find_duplicates_member _ _ _ _ _ Hg1 Hp1) as [_ Hh1].
    destruct (find_duplicates_member _ _ _ _ _ Hg2 Hp2) as [_ Hh2].
    assert (h1 = h2) as -> by congruence.
    apply (NoDup_lookup _ i j h2 (iterate_NoDup_keys (find_duplicates fs files).1));
      by rewrite list_lookup_fmap, ?Hi, ?Hj.
Qed.

Lemma find_duplicates_paths_resolve `{StdHash} `{UnorderedIter} fs files p :
  p ∈ all_paths (iterate (find_duplicates fs files).1) →
  ∃ nd, resolve fs p = inr nd.
Proof.
  intros ([hash g] & Hin%iterate_elem_of & Hp)%elem_of_flat_map.
  destruct (find_duplicates_member _ _ _ _ _ Hin Hp) as [_ Hh].
  apply generate_file_hash_Ok in Hh as (content & Hread & _).
  apply read_file_resolve in Hread as (nd & Hnd & _). by exists nd.
Qed.

Lemma find_duplicates_paths_exist `{StdHash} `{UnorderedIter} fs files p :
  p ∈ all_paths (iterate (find_duplicates fs files).1) → is_Some (fs !! p).
Proof.
  intros [nd Hnd]%find_duplicates_paths_resolve. by eapply resolve_is_Some.
Qed.

(** Groups of different keys are separated: a path that leads through a
    member of a group reads what that member reads, and has its digest. *)
Lemma keyed_groups_separated `{StdHash} fs (groups : list (string * list FileInfo)) :
  NoDup groups.*1 →
  (∀ hash g p, (hash, g) ∈ groups → p ∈ fi_path <$> g →
     generate_file_hash fs p = Ok hash) →
  separated fs groups.
Proof.
  induction groups as [|[hash g] groups IH]; [done|].
  rewrite fmap_cons. intros [Hkey Hnodup]%NoDup_cons Hmember. split.
  - intros p q ([hash' g'] & Hin & Hp)%elem_of_flat_map Hq Hreach.
    cbn [snd] in *.
    pose proof (Hmember hash' g' p (list_elem_of_further _ _ _ Hin) Hp) as Hhp.
    pose proof (Hmember hash g q (list_elem_of_here _ _) Hq) as Hhq.
    apply generate_file_hash_Ok in Hhp as (c & Hread & ->).
    apply read_file_resolve in Hread as (nd & Hnd & Hc).
    assert (read_file fs q = Some c) as Hreadq.
    { apply read_file_resolve. exists nd. split; [|done].
      by apply (follow_reaches fs p q nd Hreach). }
    unfold generate_file_hash in Hhq. rewrite Hreadq in Hhq.
    injection Hhq as <-. destruct Hkey. simpl.
    by apply (list_elem_of_fmap_2 fst _ (digest c, g')).
  - apply IH; [done|]. intros hash' g' p Hin. apply Hmember. by right.
Qed.

Lemma find_duplicates_paths_readable `{StdHash} `{UnorderedIter} w fs files p :
  (∀ p nd, resolve fs p = inr nd → ∃ t, nd_mtime nd = FsOk t) →
  p ∈ all_paths (iterate (find_duplicates fs files).1) →
  ∃ t, last_write_time w fs p = Ok t.
Proof.
  intros Hmtime [nd Hnd]%find_duplicates_paths_resolve.
  unfold last_write_time. rewrite Hnd.
  destruct (Hmtime p nd Hnd) as [t ->]. by exists t.
Qed.

Lemma find_duplicates_separated `{StdHash} `{UnorderedIter} fs files :
  separated fs (iterate (find_duplicates fs files).1).
Proof.
  apply keyed_groups_separated; [apply iterate_NoDup_keys|].
  intros hash g p Hin%iterate_elem_of Hp.
  by destruct (find_duplicates_member _ _ _ _ _ Hin Hp).
Qed.

(** ** What goes to which stream *)

Lemma size_warnings_cerr entry :
  Forall (λ ev, stream_of ev = Cerr) (size_warnings entry).
Proof.
  induction entry as [p r s|p msg|p entries IH] using dirent_nested_ind.
  - destruct r as [[|]|?], s; simpl; by repeat constructor.
  - constructor.
  - simpl. apply Forall_forall.
    intros ev (e & He & Hev)%elem_of_flat_map.
    rewrite Forall_forall in IH. specialize (IH e He).
    by apply (proj1 (Forall_forall _ _) IH).
Qed.

Lemma find_files_cerr w dir :
  Forall (λ ev, stream_of ev = Cerr) (find_files w dir).2.
Proof.
  destruct (find_files_spec w dir)
    as (found & warned & _ & Hw & [[_ ->]|[_ [msg ->]]]); cbn [fst snd].
  - apply size_warnings_cerr.
  - apply Forall_app. split; [|by repeat constructor].
    destruct Hw as [k Hk]. pose proof (size_warnings_cerr (Directory dir (w_tree w dir))) as Hall.
    rewrite Hk in Hall. by apply Forall_app in Hall as [? _].
Qed.

Lemma hash_bucket_cerr `{StdHash} fs size group :
  Forall (λ ev, stream_of ev = Cerr) (hash_bucket fs size group).2.
Proof.
  unfold hash_bucket. induction group as [|f group IH] using rev_ind; [constructor|].
  rewrite fold_left_app. simpl. unfold hash_step at 1.
  destruct (generate_file_hash fs (fi_path f)); simpl; [done|].
  apply Forall_app. split; [done|by repeat constructor].
Qed.

Lemma find_duplicates_cerr `{StdHash} `{UnorderedIter} fs files :
  Forall (λ ev, stream_of ev = Cerr) (find_duplicates fs files).2.
Proof.
  unfold find_duplicates.
  induction (iterate (group_by_size files)) as [|entry l IH] using rev_ind;
    [constructor|].
  rewrite fold_left_app. simpl. unfold bucket_step at 1.
  case_decide; [|done]. simpl.
  apply Forall_app. split; [done|apply hash_bucket_cerr].
Qed.

(** * Facts about main *)

(** What a run with a valid root prints before it looks at the groups. *)
Definition prelude `{StdHash} `{UnorderedIter} (w : World) (dir : string)
    (fs : filesystem) : list event :=
  [EvScanning dir] ++ (find_files w dir).2 ++
  [EvFoundFiles (length (find_files w dir).1); EvLooking] ++
  (find_duplicates fs (find_files w dir).1).2.

Definition action_of (args : list string) : string :=
  match args with a :: _ => a | [] => "--list" end.

Definition valid_root (w : World) (dir : string) : Prop :=
  w_status w dir = FsOk ft_directory.

Lemma valid_root_test w dir :
  invalid_directory w dir = Ok false ↔ valid_root w dir.
Proof.
  unfold invalid_directory, fs_exists, is_directory, valid_root.
  destruct (w_status w dir) as [[]|]; naive_solver.
Qed.

Lemma main_valid_root `{StdHash} `{StdSort} `{UnorderedIter} w prog dir args st :
  valid_root w dir →
  main w (prog :: dir :: args) st =
    let duplicates := (find_duplicates (st_fs st) (find_files w dir).1).1 in
    let out := st_out st ++ prelude w dir (st_fs st) in
    if decide (duplicates = ∅) then
      (Exit 0, mkState (st_fs st) (out ++ [EvNoDuplicates]))
    else
      match handle_duplicates w duplicates (action_of args)
              (mkState (st_fs st) (out ++ [EvFoundGroups (size duplicates)])) with
      | (Ok _, st') => (Exit 0, st')
      | (Throw e, st') =>
          (Exit 1, mkState (st_fs st') (st_out st' ++ [EvError (what e)]))
      end.
Proof.
  intros Hvalid%valid_root_test. unfold main. rewrite Hvalid.
  fold (action_of args).
  unfold main_body, bind, emit, emit_all, get_fs, ret, prelude. simpl.
  case_decide; simpl; repeat (rewrite <-app_assoc; simpl); [done|].
  by destruct (handle_duplicates _ _ _ _) as [[[]|e] st'].
Qed.

(** Without a valid root nothing is scanned: the run ends with the
    invalid-directory message and status 1, or, when the status of the root
    cannot be read, with the exception of the test. *)
Lemma main_invalid_root `{StdHash} `{StdSort} `{UnorderedIter} w prog dir args st :
  ¬ valid_root w dir →
  main w (prog :: dir :: args) st =
    match w_status w dir with
    | FsError msg => (Terminate (filesystem_error msg), st)
    | FsOk _ =>
        (Exit 1, mkState (st_fs st) (st_out st ++ [EvInvalidDirectory dir]))
    end.
Proof.
  unfold valid_root, main, invalid_directory, fs_exists, is_directory.
  by destruct (w_status w dir) as [[]|].
Qed.

Lemma prelude_cerr_or_progress `{StdHash} `{UnorderedIter} w dir fs ev :
  ev ∈ prelude w dir fs →
  stream_of ev = Cerr ∨ ev = EvScanning dir ∨
  ev = EvFoundFiles (length (find_files w dir).1) ∨ ev = EvLooking.
Proof.
  unfold prelude. rewrite !elem_of_app, !elem_of_cons, !elem_of_nil.
  pose proof (find_files_cerr w dir) as Hfiles.
  pose proof (find_duplicates_cerr fs (find_files w dir).1) as Hdups.
  rewrite Forall_forall in Hfiles, Hdups. naive_solver.
Qed.

Lemma prelude_no_original `{StdHash} `{UnorderedIter} w dir fs p :
  (EvOriginal p ∉ prelude w dir fs) ∧ (EvDuplicate p ∉ prelude w dir fs).
Proof.
  split; intros [Herr|[?|[?|?]]]%prelude_cerr_or_progress; done.
Qed.

(** * The claims about canonical selection *)

(** Seventeen files of equal content and equal modification time. *)
Definition copies : list string :=
  ["s/f00"; "s/f01"; "s/f02"; "s/f03"; "s/f04"; "s/f05"; "s/f06"; "s/f07";
   "s/f08"; "s/f09"; "s/f10"; "s/f11"; "s/f12"; "s/f13"; "s/f14"; "s/f15";
   "s/f16"].

Definition copies_fs : filesystem :=
  list_to_map
    (imap (λ i p, (p, Regular (mkNode (N.of_nat i) (Some "copy") (FsOk 100%Z)))) copies).

Definition copies_world : World :=
  {| w_status p := FsOk (if decide (p = "s") then ft_directory else ft_not_found);
     w_tree p :=
       if decide (p = "s") then
         FsOk ((λ p, File p (FsOk true) (FsOk 4%N)) <$> copies)
       else FsError ("cannot open directory: " +:+ p);
     w_remove_error _ := None;
     w_link_error _ _ := None;
     w_what := libstdcxx_what |}.

Global Instance event_eq_dec : EqDecision event.
Proof. solve_decision. Defined.

(** C3, as stated, fails in its tie-break: [std::sort] is not stable.  The
    seventeen files are found in the order of their names and are all of the
    same age; with the sort of libstdc++ the run keeps [s/f08], the ninth
    file found, and deletes [s/f00], the first. *)
Lemma tie_keeps_a_later_member :
  (find_files copies_world "s").1 = (λ p, mkFileInfo p 4 "") <$> copies ∧
  Forall (λ p, last_write_time copies_world copies_fs p = Ok 100%Z) copies ∧
  EvOriginal "s/f08" ∈
    st_out (@main poly_hash libstdcxx_sort map_order copies_world
              ["dedup"; "s"; "--delete"] (mkState copies_fs [])).2 ∧
  EvDeleted "s/f00" ∈
    st_out (@main poly_hash libstdcxx_sort map_order copies_world
              ["dedup"; "s"; "--delete"] (mkState copies_fs [])).2 ∧
  st_fs (@main poly_hash libstdcxx_sort map_order copies_world
           ["dedup"; "s"; "--delete"] (mkState copies_fs [])).2 !! "s/f00" = None.
Proof.
  split_and!.
  - reflexivity.
  - apply (bool_decide_unpack _). vm_compute. exact I.
  - apply (bool_decide_unpack _). vm_compute. exact I.
  - apply (bool_decide_unpack _). vm_compute. exact I.
  - vm_compute. reflexivity.
Qed.

(** The contract of [std::sort] alone does not settle ties either: the
    insertion sort that takes the elements back to front meets it and keeps
    the second of two files of the same age. *)
Definition twins_fs : filesystem :=
  <["t/x.txt" := Regular (mkNode 1 (Some "same") (FsOk 100%Z))]>
  (<["t/y.txt" := Regular (mkNode 2 (Some "same") (FsOk 100%Z))]> ∅).

Lemma contract_allows_reversed_ties :
  StdSortSpec insertion_sort_back ∧
  std_sort (StdSort := insertion_sort_back) (mtime_less tree_world twins_fs)
    ["t/x.txt"; "t/y.txt"] = Ok ["t/y.txt"; "t/x.txt"].
Proof. split; [exact insertion_sort_back_spec|reflexivity]. Qed.

(** C3, amended: when the modification times of the members can be read,
    the member kept is a member than which no member is older, and all other
    members are handed to the action; which of several oldest members is
    kept is up to [std::sort]. *)
Theorem canonical_is_an_oldest_member `{!StdSortSpec sorter} (w : World) (action hash : string)
    (files : list FileInfo) (st : state) :
  files ≠ [] →
  mtimes_readable w (st_fs st) files →
  ∃ original rest,
    original :: rest ≡ₚ fi_path <$> files ∧
    (∀ p, p ∈ fi_path <$> files →
       (mtime_of w (st_fs st) original ≤ mtime_of w (st_fs st) p)%Z) ∧
    handle_group w action (hash, files) st =
      for_each (process_duplicate w action original) rest
        (mkState (st_fs st)
           (st_out st ++ [EvGroup (length files) hash; EvOriginal original])).
Proof.
  intros Hne Hread.
  destruct (handle_group_sorted w action hash files st Hne Hread)
    as (original & rest & _ & Hperm & Hmin & Hrun).
  by exists original, rest.
Qed.

Lemma tree_group_mtimes_readable : mtimes_readable tree_world tree_fs tree_group.
Proof.
  intros f Hf. repeat (apply elem_of_cons in Hf as [->|Hf]); [..|by inversion Hf];
    eexists; vm_compute; reflexivity.
Qed.

Lemma canonical_is_an_oldest_member_witness :
  ∃ original rest,
    original :: rest ≡ₚ fi_path <$> tree_group ∧
    (∀ p, p ∈ fi_path <$> tree_group →
       (mtime_of tree_world tree_fs original ≤ mtime_of tree_world tree_fs p)%Z) ∧
    @handle_group insertion_sort tree_world "--list"
      (@digest poly_hash "hello", tree_group) (mkState tree_fs []) =
      for_each (process_duplicate tree_world "--list" original) rest
        (mkState tree_fs
           [EvGroup (length tree_group) (@digest poly_hash "hello");
            EvOriginal original]).
Proof.
  apply (@canonical_is_an_oldest_member insertion_sort insertion_sort_spec tree_world "--list"
           (@digest poly_hash "hello") tree_group (mkState tree_fs [])).
  - discriminate.
  - exact tree_group_mtimes_readable.
Defined.

(** The tree above, with the modification time of [r/a.txt] unreadable. *)
Definition unreadable_mtime_fs : filesystem :=
  <["r/a.txt" := Regular (mkNode 1 (Some "hello") (FsError "Permission denied"))]> tree_fs.

(** C1, as stated, fails: the modification time of [r/a.txt] cannot be
    read; the run prints the header of its group and the error, does
    nothing to that group or to the group of [r/d.txt] and [r/e.txt], which
    comes after it, and exits with status 1. *)
Lemma mtime_failure_ends_the_run :
  @main poly_hash libstdcxx_sort reverse_order tree_world
    ["dedup"; "r"; "--delete"] (mkState unreadable_mtime_fs []) =
  (Exit 1,
   mkState unreadable_mtime_fs
     [EvScanning "r"; EvFoundFiles 5; EvLooking; EvFoundGroups 2;
      EvGroup 2 (@digest poly_hash "hello"); EvError "Permission denied"]).
Proof. vm_compute. reflexivity. Qed.

Lemma iterate_nonempty `{UnorderedIter} `{Countable K} {V} (m : gmap K V) :
  iterate m ≠ [] → m ≠ ∅.
Proof.
  intros Hne ->. apply Hne.
  apply Permutation_nil. by rewrite iterate_perm, map_to_list_empty.
Qed.

(** C1, amended: when the modification time of a member cannot be read
    while its group is sorted, the exception leaves [handle_duplicates]:
    after the groups handled before it the run prints the header of the
    group and the error, chooses no original, applies no action to this
    group or to any later one, and exits with status 1. *)
Theorem mtime_failure_is_fatal `{StdHash} `{!StdSortSpec sorter} `{UnorderedIter}
    (w : World) (prog dir : string) (args : list string) (fs : filesystem)
    (earlier later : list (string * list FileInfo)) (hash : string)
    (files : list FileInfo) (st1 : state) (f : FileInfo) :
  valid_root w dir →
  let duplicates := (find_duplicates fs (find_files w dir).1).1 in
  iterate duplicates = earlier ++ (hash, files) :: later →
  for_each (handle_group w (action_of args)) earlier
    (mkState fs (prelude w dir fs ++ [EvFoundGroups (size duplicates)])) =
    (Ok tt, st1) →
  f ∈ files →
  is_throw (last_write_time w (st_fs st1) (fi_path f)) →
  ∃ e, main w (prog :: dir :: args) (mkState fs []) =
         (Exit 1, mkState (st_fs st1)
                    (st_out st1 ++ [EvGroup (length files) hash; EvError (what e)])).
Proof.
  intros Hvalid duplicates Hiter Hearlier Hf Hthrow.
  assert (1 < length files) as Hlen.
  { pose proof (find_duplicates_groups_long fs (find_files w dir).1) as Hlong.
    fold duplicates in Hlong. rewrite Hiter, Forall_app, Forall_cons in Hlong.
    by destruct Hlong as (_ & ? & _). }
  destruct (handle_group_unreadable w (action_of args) hash files st1 f Hlen Hf Hthrow)
    as [e Hgroup].
  exists e. rewrite main_valid_root by done.
  cbv zeta. cbn [st_fs st_out]. rewrite app_nil_l. fold duplicates.
  rewrite decide_False by (apply iterate_nonempty; rewrite Hiter; by destruct earlier).
  unfold handle_duplicates. rewrite Hiter, for_each_app, Hearlier.
  rewrite for_each_cons, Hgroup. cbn [st_fs st_out]. by rewrite <-app_assoc.
Qed.

Lemma mtime_failure_is_fatal_witness :
  ∃ e, @main poly_hash insertion_sort reverse_order tree_world
         ["dedup"; "r"; "--delete"] (mkState unreadable_mtime_fs []) =
       (Exit 1,
        mkState unreadable_mtime_fs
          ([EvScanning "r"; EvFoundFiles 5; EvLooking; EvFoundGroups 2] ++
           [EvGroup 2 (@digest poly_hash "hello"); EvError (what e)])).
Proof.
  apply (@mtime_failure_is_fatal poly_hash insertion_sort insertion_sort_spec reverse_order tree_world
           "dedup" "r" ["--delete"] unreadable_mtime_fs []
           [(@digest poly_hash "hey",
             [mkFileInfo "r/d.txt" 3 (@digest poly_hash "hey");
              mkFileInfo "r/e.txt" 3 (@digest poly_hash "hey")])]
           (@digest poly_hash "hello") tree_group
           (mkState unreadable_mtime_fs
              [EvScanning "r"; EvFoundFiles 5; EvLooking; EvFoundGroups 2])
           (mkFileInfo "r/a.txt" 5 (@digest poly_hash "hello"))).
  - reflexivity.
  - vm_compute. reflexivity.
  - vm_compute. reflexivity.
  - right. left.
  - vm_compute. exact I.
Defined.

(** * The claims about the actions *)

Global Instance file_type_eq_dec : EqDecision file_type.
Proof. solve_decision. Defined.

Global Instance fs_result_eq_dec `{EqDecision A} : EqDecision (fs_result A).
Proof. solve_decision. Defined.

Global Instance valid_root_dec w dir : Decision (valid_root w dir).
Proof. unfold valid_root. apply _. Defined.

Lemma submseteq_NoDup {A} (l k : list A) : l ⊆+ k → NoDup k → NoDup l.
Proof.
  intros [k' Hk]%submseteq_Permutation. rewrite Hk.
  by intros [? _]%NoDup_app.
Qed.

(** A whole run: the originals and the duplicates it announces are distinct
    paths, and the file system differs at announced duplicates only. *)
Lemma main_run `{StdHash} `{!StdSortSpec sorter} `{UnorderedIter} w argv fs :
  (∀ dir, argv !! 1 = Some dir → NoDup (fi_path <$> (find_files w dir).1)) →
  ∃ originals superseded,
    NoDup (originals ++ superseded) ∧
    (∀ p, EvOriginal p ∈ st_out (main w argv (mkState fs [])).2 ↔ p ∈ originals) ∧
    (∀ p, EvDuplicate p ∈ st_out (main w argv (mkState fs [])).2 ↔ p ∈ superseded) ∧
    (∀ p, p ∉ superseded → st_fs (main w argv (mkState fs [])).2 !! p = fs !! p).
Proof.
  intros Hcatalog.
  assert (∀ ev, (∀ p, ev ≠ EvOriginal p) → (∀ p, ev ≠ EvDuplicate p) →
          NoDup ([] ++ [] : list string) ∧
          (∀ p, EvOriginal p ∈ [ev] ↔ p ∈ ([] : list string)) ∧
          (∀ p, EvDuplicate p ∈ [ev] ↔ p ∈ ([] : list string)) ∧
          (∀ p : string, p ∉ ([] : list string) → fs !! p = fs !! p)) as Hquiet.
  { intros ev Ho Hd. split_and!; [constructor| | |done].
    - intros p. rewrite list_elem_of_singleton, elem_of_nil. naive_solver.
    - intros p. rewrite list_elem_of_singleton, elem_of_nil. naive_solver. }
  destruct argv as [|prog [|dir args]]; try (exists [], []; by apply Hquiet).
  specialize (Hcatalog dir eq_refl).
  destruct (decide (valid_root w dir)) as [Hvalid|Hinvalid].
  2:{ rewrite main_invalid_root by done. exists [], [].
      destruct (w_status w dir); [by apply Hquiet|].
      split_and!; [constructor| | |done]; intros p; by rewrite !elem_of_nil. }
  rewrite main_valid_root by done. cbv zeta. cbn [st_fs st_out]. rewrite app_nil_l.
  set (duplicates := (find_duplicates fs (find_files w dir).1).1).
  case_decide as Hempty.
  { exists [], []. cbn [snd st_fs st_out]. split_and!; [constructor| | |done].
    - intros p. rewrite elem_of_app, list_elem_of_singleton, elem_of_nil.
      destruct (prelude_no_original w dir fs p). naive_solver.
    - intros p. rewrite elem_of_app, list_elem_of_singleton, elem_of_nil.
      destruct (prelude_no_original w dir fs p). naive_solver. }
  unfold handle_duplicates.
  destruct (handle_groups_run w (action_of args) (iterate duplicates)
              (find_duplicates_groups_long fs (find_files w dir).1)
              (mkState fs (prelude w dir fs ++ [EvFoundGroups (size duplicates)])))
    as (r & fs' & evs & originals & superseded & Hrun & Hsub & Hframe & _ & Horig & Hdup).
  fold duplicates in Hrun. rewrite Hrun. cbn [st_fs st_out] in *.
  exists originals, superseded.
  assert (∀ tail, (∀ p, EvOriginal p ∉ tail) → (∀ p, EvDuplicate p ∉ tail) →
          (∀ p, EvOriginal p ∈
             ((prelude w dir fs ++ [EvFoundGroups (size duplicates)]) ++ evs) ++ tail
             ↔ p ∈ originals) ∧
          (∀ p, EvDuplicate p ∈
             ((prelude w dir fs ++ [EvFoundGroups (size duplicates)]) ++ evs) ++ tail
             ↔ p ∈ superseded)) as Hevents.
  { intros tail Ho Hd. split; intros p;
      rewrite !elem_of_app, list_elem_of_singleton, <-?Horig, <-?Hdup;
      destruct (prelude_no_original w dir fs p); specialize (Ho p);
      specialize (Hd p); naive_solver. }
  split.
  { eapply submseteq_NoDup; [done|]. by apply find_duplicates_paths_NoDup. }
  destruct r as [[]|e]; cbn [snd st_fs st_out].
  - destruct (Hevents []) as [Ho Hd]; [set_solver..|].
    rewrite app_nil_r in Ho, Hd. by split_and!.
  - destruct (Hevents [EvError (what e)]) as [Ho Hd].
    + intros p. by rewrite list_elem_of_singleton.
    + intros p. by rewrite list_elem_of_singleton.
    + by split_and!.
Qed.

(** X16: in every run, whatever the action, the name announced as the
    original of a group is in the end the name it was at the start, and every
    name that has changed was announced as a duplicate and never as an
    original.  A path reads in the end the file it read at the start when it
    leads through no name announced as a duplicate.  (The walker yields
    every path once.) *)
Theorem kept_name_is_never_touched `{StdHash} `{!StdSortSpec sorter} `{UnorderedIter}
    (w : World) (argv : list string) (fs : filesystem) :
  (∀ dir, argv !! 1 = Some dir → NoDup (fi_path <$> (find_files w dir).1)) →
  let final := (main w argv (mkState fs [])).2 in
  (∀ p, EvOriginal p ∈ st_out final → st_fs final !! p = fs !! p) ∧
  (∀ p, st_fs final !! p ≠ fs !! p →
     EvDuplicate p ∈ st_out final ∧ (EvOriginal p ∉ st_out final)) ∧
  (∀ p, (∀ q, reaches fs p q → EvDuplicate q ∉ st_out final) →
     resolve (st_fs final) p = resolve fs p).
Proof.
  intros Hcatalog final.
  destruct (main_run w argv fs Hcatalog)
    as (originals & superseded & Hnodup & Horig & Hdup & Hframe).
  fold final in Horig, Hdup, Hframe.
  apply NoDup_app in Hnodup as (_ & Hdisj & _). split_and!.
  - intros p Hp%Horig. apply Hframe. by apply Hdisj.
  - intros p Hchanged.
    destruct (decide (p ∈ superseded)) as [Hin|Hout]; [|by destruct Hchanged; apply Hframe].
    split; [by apply Hdup|]. intros Hp%Horig. by apply (Hdisj p).
  - intros p Hclear. apply follow_frame. intros q Hq. apply Hframe.
    intros Hin%Hdup. by apply (Hclear q).
Qed.

Lemma tree_catalog_found : (find_files tree_world "r").1 = tree_catalog.
Proof. reflexivity. Qed.

Lemma tree_catalog_NoDup : NoDup (fi_path <$> (find_files tree_world "r").1).
Proof. apply (bool_decide_unpack _). vm_compute. exact I. Qed.

Lemma kept_name_is_never_touched_witness :
  let final := (@main poly_hash insertion_sort map_order tree_world
                  ["dedup"; "r"; "--hardlink"] (mkState tree_fs [])).2 in
  (∀ p, EvOriginal p ∈ st_out final → st_fs final !! p = tree_fs !! p) ∧
  (∀ p, st_fs final !! p ≠ tree_fs !! p →
     EvDuplicate p ∈ st_out final ∧ (EvOriginal p ∉ st_out final)) ∧
  (∀ p, (∀ q, reaches tree_fs p q → EvDuplicate q ∉ st_out final) →
     resolve (st_fs final) p = resolve tree_fs p).
Proof.
  apply (@kept_name_is_never_touched poly_hash insertion_sort insertion_sort_spec
           map_order tree_world ["dedup"; "r"; "--hardlink"] tree_fs).
  intros dir [= <-]. exact tree_catalog_NoDup.
Defined.

(** ** A kept symbolic link

    A file and a symbolic link to it in one directory.  The link answers
    [is_regular_file()] and [file_size()] as the file does, reads its bytes
    and has its modification time; the walk meets the link first. *)
Definition alias_fs : filesystem :=
  <["n/link_to_f1" := Symlink "n/f1"]>
  (<["n/f1" := Regular (mkNode 1 (Some "data") (FsOk 100%Z))]> ∅).

Definition alias_world : World :=
  {| w_status p := FsOk (if decide (p = "n") then ft_directory else ft_not_found);
     w_tree p :=
       if decide (p = "n") then
         FsOk [File "n/link_to_f1" (FsOk true) (FsOk 4%N);
               File "n/f1" (FsOk true) (FsOk 4%N)]
       else FsError ("cannot open directory: " +:+ p);
     w_remove_error _ := None;
     w_link_error _ _ := None;
     w_what := libstdcxx_what |}.

(** C6: the member kept of a group does not stay what it was.  The link
    and the file are taken for two copies; they are of one age, the link is
    kept as the original and the file is deleted as its duplicate.  The kept
    path, which read the four bytes at the start, reads nothing in the end,
    and no path reads them any more: the only copy is gone, and the run
    exits with status 0. *)
Theorem kept_symlink_loses_its_file :
  let run := @main poly_hash libstdcxx_sort map_order alias_world
               ["dedup"; "n"; "--delete"] (mkState alias_fs []) in
  read_file alias_fs "n/link_to_f1" = Some "data" ∧
  run =
    (Exit 0,
     mkState (delete "n/f1" alias_fs)
       [EvScanning "n"; EvFoundFiles 2; EvLooking; EvFoundGroups 1;
        EvGroup 2 (@digest poly_hash "data");
        EvOriginal "n/link_to_f1"; EvDuplicate "n/f1"; EvDeleted "n/f1"]) ∧
  read_file (st_fs run.2) "n/link_to_f1" = None ∧
  ∀ p, read_file (st_fs run.2) p = None.
Proof.
  assert (@main poly_hash libstdcxx_sort map_order alias_world
            ["dedup"; "n"; "--delete"] (mkState alias_fs []) =
          (Exit 0,
           mkState (delete "n/f1" alias_fs)
             [EvScanning "n"; EvFoundFiles 2; EvLooking; EvFoundGroups 1;
              EvGroup 2 (@digest poly_hash "data");
              EvOriginal "n/link_to_f1"; EvDuplicate "n/f1"; EvDeleted "n/f1"]))
    as Hrun by (vm_compute; reflexivity).
  cbv zeta. rewrite Hrun. cbn [snd st_fs].
  split; [reflexivity|]. split; [reflexivity|]. split; [reflexivity|].
  intros p. unfold read_file, resolve, alias_fs.
  destruct (decide (p = "n/link_to_f1")) as [->|Hlink]; [reflexivity|].
  simpl. destruct (decide (p = "n/f1")) as [->|Hfile].
  - by rewrite lookup_delete_eq.
  - by rewrite lookup_delete_ne, !lookup_insert_ne, lookup_empty.
Qed.

(** In hardlink mode the file is removed likewise, and its name is made a
    link of the kept symbolic link: both names lead to themselves. *)
Lemma kept_symlink_hardlink_run :
  @main poly_hash libstdcxx_sort map_order alias_world
    ["dedup"; "n"; "--hardlink"] (mkState alias_fs []) =
  (Exit 0,
   mkState (<["n/f1" := Symlink "n/f1"]> alias_fs)
     [EvScanning "n"; EvFoundFiles 2; EvLooking; EvFoundGroups 1;
      EvGroup 2 (@digest poly_hash "data");
      EvOriginal "n/link_to_f1"; EvDuplicate "n/f1"; EvCreatedHardlink "n/f1"]).
Proof. vm_compute. reflexivity. Qed.

Lemma alias_valid_root : valid_root alias_world "n".
Proof. reflexivity. Qed.

Lemma alias_catalog_NoDup : NoDup (fi_path <$> (find_files alias_world "n").1).
Proof. apply (bool_decide_unpack _). vm_compute. exact I. Qed.

Lemma alias_mtimes_readable p nd :
  resolve alias_fs p = inr nd → ∃ t, nd_mtime nd = FsOk t.
Proof.
  unfold resolve. simpl. destruct (alias_fs !! p) as [entry|] eqn:Hp; [|done].
  unfold alias_fs in Hp.
  apply lookup_insert_Some in Hp as [[_ <-]|[_ Hp]].
  { intros [= <-]. eexists. reflexivity. }
  apply lookup_insert_Some in Hp as [[_ <-]|[_ Hp]].
  { intros [= <-]. eexists. reflexivity. }
  by rewrite lookup_empty in Hp.
Qed.





(** A run of the tree above in which the link from [r/d.txt] to [r/e.txt]
    is refused: [r/d.txt] is gone, the failure is reported, the next group
    is handled, and the status is 0. *)
Definition refused_link_world : World :=
  {| w_status := w_status tree_world;
     w_tree := w_tree tree_world;
     w_remove_error _ := None;
     w_link_error target link :=
       if decide (link = "r/d.txt") then Some "Operation not permitted"
       else None;
     w_what := libstdcxx_what |}.

Lemma refused_link_run :
  @main poly_hash libstdcxx_sort map_order refused_link_world
    ["dedup"; "r"; "--hardlink"] (mkState tree_fs []) =
  (Exit 0,
   mkState (<["r/b.txt" := Regular (mkNode 1 (Some "hello") (FsOk 100%Z))]>
              (delete "r/d.txt" tree_fs))
     [EvScanning "r"; EvFoundFiles 5; EvLooking; EvFoundGroups 2;
      EvGroup 2 (@digest poly_hash "hey");
      EvOriginal "r/e.txt"; EvDuplicate "r/d.txt";
      EvHardlinkFailed "Operation not permitted";
      EvGroup 2 (@digest poly_hash "hello");
      EvOriginal "r/a.txt"; EvDuplicate "r/b.txt";
      EvCreatedHardlink "r/b.txt"]).
Proof. vm_compute. reflexivity. Qed.


(** ** Actions other than delete and hardlink *)

Lemma process_duplicate_listing w action original it st :
  action ≠ "--delete" → action ≠ "--hardlink" →
  process_duplicate w action original it st =
    (Ok tt, mkState (st_fs st) (st_out st ++ [EvDuplicate it])).
Proof.
  intros Hdelete Hhardlink. unfold process_duplicate, bind, emit, ret.
  by rewrite !decide_False by done.
Qed.

Lemma for_each_ext {A} (body1 body2 : A → M unit) l :
  (∀ x st, body1 x st = body2 x st) →
  ∀ st, for_each body1 l st = for_each body2 l st.
Proof.
  intros Hext. induction l as [|x l IH]; intros st; [done|].
  rewrite !for_each_cons, Hext. by destruct (body2 x st) as [[[]|e] st'].
Qed.

Lemma handle_group_ext `{StdSort} w action1 action2 :
  (∀ original it st, process_duplicate w action1 original it st =
                     process_duplicate w action2 original it st) →
  ∀ entry st, handle_group w action1 entry st = handle_group w action2 entry st.
Proof.
  intros Hext [hash files] st. rewrite !handle_group_unfold. cbv zeta.
  destruct (std_sort _ _) as [[|original rest]|e]; try done.
  apply for_each_ext. intros it st'. apply Hext.
Qed.

Lemma main_ext `{StdHash} `{StdSort} `{UnorderedIter} w prog dir args1 args2 st :
  (∀ original it st, process_duplicate w (action_of args1) original it st =
                     process_duplicate w (action_of args2) original it st) →
  main w (prog :: dir :: args1) st = main w (prog :: dir :: args2) st.
Proof.
  intros Hext. destruct (decide (valid_root w dir)) as [Hvalid|Hinvalid];
    [|by rewrite !main_invalid_root].
  rewrite !main_valid_root by done. cbv zeta. case_decide; [done|].
  unfold handle_duplicates.
  by rewrite (for_each_ext _ _ _ (handle_group_ext w _ _ Hext)).
Qed.

Lemma for_each_listing w action original rest :
  action ≠ "--delete" → action ≠ "--hardlink" →
  ∀ st, st_fs (for_each (process_duplicate w action original) rest st).2 = st_fs st.
Proof.
  intros Hdelete Hhardlink. induction rest as [|it rest IH]; intros st; [done|].
  rewrite for_each_cons, process_duplicate_listing by done. by rewrite IH.
Qed.

Lemma handle_groups_listing `{StdSort} w action groups :
  action ≠ "--delete" → action ≠ "--hardlink" →
  ∀ st, st_fs (for_each (handle_group w action) groups st).2 = st_fs st.
Proof.
  intros Hdelete Hhardlink. induction groups as [|[hash files] groups IH];
    intros st; [done|].
  rewrite for_each_cons.
  assert (st_fs (handle_group w action (hash, files) st).2 = st_fs st) as Hgroup.
  { rewrite handle_group_unfold. cbv zeta.
    destruct (std_sort _ _) as [[|original rest]|e]; try done.
    by rewrite for_each_listing. }
  destruct (handle_group w action (hash, files) st) as [[[]|e] st']; [|done].
  by rewrite IH.
Qed.

(** C10: with an action argument that is neither [--delete] nor
    [--hardlink], the run is the run with [--list] and the run with no action
    argument, exit status and output included, and the file system is in the
    end what it was at the start. *)
Theorem other_actions_only_list `{StdHash} `{StdSort} `{UnorderedIter}
    (w : World) (prog dir action : string) (more : list string) (st : state) :
  action ≠ "--delete" → action ≠ "--hardlink" →
  main w (prog :: dir :: action :: more) st = main w [prog; dir; "--list"] st ∧
  main w (prog :: dir :: action :: more) st = main w [prog; dir] st ∧
  st_fs (main w (prog :: dir :: action :: more) st).2 = st_fs st.
Proof.
  intros Hdelete Hhardlink.
  assert (∀ args, action_of args = "--list" →
            main w (prog :: dir :: action :: more) st = main w (prog :: dir :: args) st)
    as Hlist.
  { intros args Hargs. apply main_ext. intros original it st'. rewrite Hargs. simpl.
    by rewrite !process_duplicate_listing. }
  split; [by apply Hlist|]. split; [by apply Hlist|].
  destruct (decide (valid_root w dir)) as [Hvalid|Hinvalid];
    [|rewrite main_invalid_root by done; by destruct (w_status w dir)].
  rewrite main_valid_root by done. cbv zeta. case_decide; [done|].
  unfold handle_duplicates.
  pose proof (handle_groups_listing w (action_of (action :: more))
                (iterate (find_duplicates (st_fs st) (find_files w dir).1).1)
                Hdelete Hhardlink
                (mkState (st_fs st)
                   ((st_out st ++ prelude w dir (st_fs st)) ++
                    [EvFoundGroups
                       (size (find_duplicates (st_fs st) (find_files w dir).1).1)])))
    as Hfs.
  by destruct (for_each _ _ _) as [[[]|e] st'].
Qed.

Lemma other_actions_only_list_witness :
  @main poly_hash insertion_sort map_order tree_world
    ["dedup"; "r"; "--remove"; "now"] (mkState tree_fs []) =
  @main poly_hash insertion_sort map_order tree_world
    ["dedup"; "r"; "--list"] (mkState tree_fs []) ∧
  @main poly_hash insertion_sort map_order tree_world
    ["dedup"; "r"; "--remove"; "now"] (mkState tree_fs []) =
  @main poly_hash insertion_sort map_order tree_world
    ["dedup"; "r"] (mkState tree_fs []) ∧
  st_fs (@main poly_hash insertion_sort map_order tree_world
           ["dedup"; "r"; "--remove"; "now"] (mkState tree_fs [])).2 = tree_fs.
Proof.
  apply (@other_actions_only_list poly_hash insertion_sort map_order tree_world
           "dedup" "r" "--remove" ["now"] (mkState tree_fs [])).
  - discriminate.
  - discriminate.
Defined.

(** * The claim about the exit status *)

Lemma main_body_status `{StdHash} `{StdSort} `{UnorderedIter} w prog dir args st :
  valid_root w dir →
  (main w (prog :: dir :: args) st).1 =
    match (main_body w dir (action_of args) st).1 with
    | Throw _ => Exit 1
    | Ok _ => Exit 0
    end.
Proof.
  intros Hvalid%valid_root_test. unfold main. rewrite Hvalid.
  fold (action_of args).
  destruct (main_body w dir (action_of args) st) as [[[status|]|e] st'] eqn:Hbody;
    try done.
  unfold main_body, bind, emit, emit_all, get_fs, ret in Hbody. simpl in Hbody.
  case_decide; [by simplify_eq|].
  by destruct (handle_duplicates _ _ _ _) as [[[]|?] ?].
Qed.

Lemma main_readable_status `{StdHash} `{!StdSortSpec sorter} `{UnorderedIter}
    w prog dir args fs :
  valid_root w dir →
  NoDup (fi_path <$> (find_files w dir).1) →
  (∀ p nd, resolve fs p = inr nd → ∃ t, nd_mtime nd = FsOk t) →
  (main w (prog :: dir :: args) (mkState fs [])).1 = Exit 0.
Proof.
  intros Hvalid Hnodup Hmtime. rewrite main_valid_root by done. cbv zeta.
  case_decide; [done|]. unfold handle_duplicates.
  pose proof (handle_groups_ok w (action_of args)
                (iterate (find_duplicates fs (find_files w dir).1).1)
                (find_duplicates_groups_long fs (find_files w dir).1)
                (mkState fs
                   (([] ++ prelude w dir fs) ++
                    [EvFoundGroups (size (find_duplicates fs (find_files w dir).1).1)])))
    as Hok.
  cbn [st_fs st_out] in *.
  destruct (for_each _ _ _) as [[[]|e] st']; [done|].
  discriminate Hok;
    [apply find_duplicates_separated|intros p; by apply find_duplicates_paths_readable].
Qed.

(** The loop over the groups is left by an exception only where a
    modification time cannot be read. *)
Lemma handle_groups_throw `{!StdSortSpec sorter} w action groups :
  Forall (λ g, 1 < length g.2) groups →
  ∀ st e st',
    for_each (handle_group w action) groups st = (Throw e, st') →
    ∃ earlier hash files later st1 f,
      groups = earlier ++ (hash, files) :: later ∧
      for_each (handle_group w action) earlier st = (Ok tt, st1) ∧
      f ∈ files ∧
      is_throw (last_write_time w (st_fs st1) (fi_path f)).
Proof.
  induction 1 as [|[hash files] groups Hlen _ IH]; intros st e st' Hrun; [done|].
  simpl in Hlen.
  destruct (mtimes_readable_or_not w (st_fs st) files) as [Hread|(f & Hf & Hthrow)].
  - rewrite for_each_cons in Hrun.
    destruct (handle_group_sorted w action hash files st)
      as (original & rest & _ & _ & _ & Hgroup);
      [intros ->; simpl in Hlen; lia|done|].
    destruct (for_each_process_run w action original rest
                (mkState (st_fs st)
                   (st_out st ++ [EvGroup (length files) hash; EvOriginal original])))
      as (fs1 & evs1 & Hrest & _).
    rewrite Hgroup, Hrest in Hrun.
    destruct (IH _ _ _ Hrun)
      as (earlier & hash' & files' & later & st1 & f & -> & Hearlier & Hf & Hthrow).
    exists ((hash, files) :: earlier), hash', files', later, st1, f.
    split; [done|]. split; [|done].
    by rewrite for_each_cons, Hgroup, Hrest.
  - by exists [], hash, files, groups, st, f.
Qed.

(** X13: how a run ends, in every case.  Without a root argument, and with a
    root that is found not to be an existing directory, the status is 1,
    nothing is scanned and nothing changed.  When the status of the root
    cannot be read, the exception of the test leaves [main].  For a valid
    root the status is 1 when an exception leaves the [try] block and 0
    otherwise, and an exception leaves it only where a modification time
    cannot be read while a group is sorted: where the walker yields every
    path once and every modification time can be read, the status is 0
    whatever else fails. *)
Theorem exit_status_cases `{StdHash} `{!StdSortSpec sorter} `{UnorderedIter}
    (w : World) (argv : list string) (fs : filesystem) :
  let run := main w argv (mkState fs []) in
  match argv with
  | [] => run = (Exit 1, mkState fs [EvUsage ""])
  | [prog] => run = (Exit 1, mkState fs [EvUsage prog])
  | prog :: dir :: args =>
      match w_status w dir with
      | FsError msg => run = (Terminate (filesystem_error msg), mkState fs [])
      | FsOk ft_directory =>
          let duplicates := (find_duplicates fs (find_files w dir).1).1 in
          run.1 = match (main_body w dir (action_of args) (mkState fs [])).1 with
                  | Throw _ => Exit 1
                  | Ok _ => Exit 0
                  end ∧
          (run.1 = Exit 1 →
           ∃ earlier hash files later st1 f,
             iterate duplicates = earlier ++ (hash, files) :: later ∧
             for_each (handle_group w (action_of args)) earlier
               (mkState fs (prelude w dir fs ++ [EvFoundGroups (size duplicates)])) =
               (Ok tt, st1) ∧
             f ∈ files ∧
             is_throw (last_write_time w (st_fs st1) (fi_path f))) ∧
          (NoDup (fi_path <$> (find_files w dir).1) →
           (∀ p nd, resolve fs p = inr nd → ∃ t, nd_mtime nd = FsOk t) →
           run.1 = Exit 0)
      | FsOk _ => run = (Exit 1, mkState fs [EvInvalidDirectory dir])
      end
  end.
Proof.
  intros run. destruct argv as [|prog [|dir args]]; [done..|].
  destruct (decide (valid_root w dir)) as [Hvalid|Hinvalid].
  2:{ unfold run. rewrite main_invalid_root by done.
      unfold valid_root in Hinvalid. by destruct (w_status w dir) as [[]|]. }
  pose proof Hvalid as Hstatus. unfold valid_root in Hstatus. rewrite Hstatus.
  intros duplicates. split; [by apply main_body_status|]. split.
  - unfold run. rewrite main_valid_root by done.
    cbv zeta. cbn [st_fs st_out]. rewrite app_nil_l. fold duplicates.
    case_decide; [done|]. unfold handle_duplicates.
    destruct (for_each _ _ _) as [[[]|e] st'] eqn:Hrun; [done|]. intros _.
    eapply handle_groups_throw; [|done].
    apply find_duplicates_groups_long.
  - intros. by apply main_readable_status.
Qed.

Lemma tree_mtimes_readable p nd :
  resolve tree_fs p = inr nd → ∃ t, nd_mtime nd = FsOk t.
Proof.
  unfold resolve. simpl. destruct (tree_fs !! p) as [entry|] eqn:Hp; [|done].
  unfold tree_fs in Hp.
  repeat (apply lookup_insert_Some in Hp as [[_ <-]|[_ Hp]];
          [intros [= <-]; eexists; reflexivity|]).
  by rewrite lookup_empty in Hp.
Qed.

Lemma exit_status_cases_tree :
  (@main poly_hash insertion_sort map_order tree_world
     ["dedup"; "r"; "--delete"] (mkState tree_fs [])).1 = Exit 0.
Proof.
  pose proof (@exit_status_cases poly_hash insertion_sort insertion_sort_spec
                map_order tree_world ["dedup"; "r"; "--delete"] tree_fs) as Hexit.
  hnf in Hexit. destruct Hexit as (_ & _ & Hzero).
  apply Hzero.
  - exact tree_catalog_NoDup.
  - exact tree_mtimes_readable.
Defined.

(** A root argument whose status cannot be read: a file name of 300
    characters, longer than any file system takes. *)
Definition long_name : string :=
  String.string_of_list_ascii (replicate 300 "a"%char).

Definition long_name_world : World :=
  {| w_status p :=
       if decide (p = long_name) then FsError "status: File name too long"
       else FsOk ft_not_found;
     w_tree p := FsError ("cannot open directory: " +:+ p);
     w_remove_error _ := None;
     w_link_error _ _ := None;
     w_what := libstdcxx_what |}.

(** C8: the root argument names no existing directory, and the run does
    not exit with status 1.  [fs::exists] throws outside the [try] block of
    [main]; nothing catches the exception, and the process is terminated
    without the invalid-directory message. *)
Theorem unreadable_root_terminates :
  @main poly_hash libstdcxx_sort map_order long_name_world
    ["dedup"; long_name] (mkState ∅ []) =
  (Terminate (filesystem_error "status: File name too long"), mkState ∅ []).
Proof. vm_compute. reflexivity. Qed.

(** * Further properties of the program *)

(** ** generate_file_hash *)

(** X1: two files that can be opened get the same hash exactly when their
    contents have the same length and the same [std::hash] value; the
    contents themselves are not compared. *)
Theorem generate_file_hash_eq_iff `{StdHash} (fs : filesystem) (p1 p2 c1 c2 : string) :
  read_file fs p1 = Some c1 → read_file fs p2 = Some c2 →
  generate_file_hash fs p1 = generate_file_hash fs p2 ↔
  String.length c1 = String.length c2 ∧ std_hash c1 = std_hash c2.
Proof.
  intros Hc1 Hc2. unfold generate_file_hash. rewrite Hc1, Hc2. split.
  - intros [= Heq]. pose proof (digest_length _ _ Heq) as Hlen.
    split; [done|]. unfold digest in Heq. rewrite Hlen in Heq.
    by do 2 apply (inj (String.app _)) in Heq; apply (inj pretty) in Heq.
  - intros [Hlen Hhash]. unfold digest. by rewrite Hlen, Hhash.
Qed.

Lemma generate_file_hash_eq_iff_witness :
  @generate_file_hash poly_hash tree_fs "r/a.txt" =
    @generate_file_hash poly_hash tree_fs "r/b.txt" ↔
  String.length "hello" = String.length "hello" ∧
  @std_hash poly_hash "hello" = @std_hash poly_hash "hello".
Proof.
  apply (@generate_file_hash_eq_iff poly_hash tree_fs "r/a.txt" "r/b.txt");
    reflexivity.
Defined.

(** ** find_files *)

Lemma cataloged_regular entry :
  fi_path <$> cataloged entry `sublist_of` regular_files entry ∧
  Forall (λ f, fi_hash f = "") (cataloged entry).
Proof.
  induction entry as [p r s|p msg|p entries IH] using dirent_nested_ind.
  - destruct r as [[|]|?], s as [size|?]; simpl; split;
      by repeat constructor.
  - by split.
  - simpl. induction IH as [|e es [Hsub Hhash] _ [IHsub IHhash]]; [by split|].
    simpl. rewrite fmap_app. split; [by apply sublist_app|by apply Forall_app].
Qed.

(** X2: the catalog names regular files of the tree only, in the order of
    the walk and no more often than the walk meets them, so it has no path
    twice when the tree has none; every entry is stored with an empty
    hash. *)
Theorem catalog_lists_regular_files (w : World) (dir : string) :
  let root := Directory dir (w_tree w dir) in
  fi_path <$> (find_files w dir).1 `sublist_of` regular_files root ∧
  Forall (λ f, fi_hash f = "") (find_files w dir).1 ∧
  (NoDup (regular_files root) → NoDup (fi_path <$> (find_files w dir).1)).
Proof.
  intros root.
  assert ((find_files w dir).1 `prefix_of` cataloged root) as [rest Hrest].
  { destruct (find_files_spec w dir)
      as (found & warned & Hf & _ & [[_ Hrun]|[_ [msg Hrun]]]);
      fold root in Hf, Hrun; rewrite Hrun; done. }
  destruct (cataloged_regular root) as [Hsub Hhash]. rewrite Hrest in Hsub, Hhash.
  rewrite fmap_app in Hsub. apply Forall_app in Hhash as [Hhash _].
  assert (fi_path <$> (find_files w dir).1 `sublist_of` regular_files root) as Hpaths.
  { etrans; [|exact Hsub]. by apply sublist_inserts_r. }
  split; [done|]. split; [done|].
  intros Hnodup. by apply (sublist_NoDup _ (regular_files root)).
Qed.

(** ** find_duplicates *)

Lemma filter_key_length {A B} `{EqDecision B} (f : A → B) (k : B) (l : list A) :
  NoDup (f <$> l) → length (filter (λ x, f x = k) l) ≤ 1.
Proof.
  induction l as [|x l IH]; [simpl; lia|].
  rewrite fmap_cons. intros [Hx Hnodup]%NoDup_cons.
  destruct (decide (f x = k)) as [Hk|Hk].
  - rewrite filter_cons_True by done.
    destruct (filter (λ y, f y = k) l) as [|y ys] eqn:Hrest; [simpl; lia|].
    assert (y ∈ filter (λ y, f y = k) l) as [Hfy Hy]%list_elem_of_filter
      by (rewrite Hrest; left).
    destruct Hx. rewrite Hk, <-Hfy. by apply list_elem_of_fmap_2.
  - rewrite filter_cons_False by done. by apply IH.
Qed.

Lemma fold_bucket_step_short `{StdHash} `{UnorderedIter} fs l : ∀ acc,
  Forall (λ entry : N * list FileInfo, length entry.2 ≤ 1) l →
  fold_left (bucket_step fs) l acc = acc.
Proof.
  induction l as [|entry l IH]; intros acc; [done|].
  intros [Hentry Hl]%Forall_cons. simpl.
  unfold bucket_step at 2. rewrite decide_False by lia. by apply IH.
Qed.

(** X3: when no two files of the catalog have the same size, no file is
    opened: there is no group and no message, also for files that could not
    have been read. *)
Theorem unique_sizes_are_never_hashed `{StdHash} `{UnorderedIter}
    (fs : filesystem) (files : list FileInfo) :
  NoDup (fi_size <$> files) → find_duplicates fs files = (∅, []).
Proof.
  intros Hnodup. unfold find_duplicates. apply fold_bucket_step_short.
  apply Forall_forall. intros [size bucket] Hin%iterate_elem_of.
  rewrite group_by_size_lookup in Hin. apply nonempty_Some in Hin as [-> _].
  simpl. by apply filter_key_length.
Qed.

Lemma unique_sizes_are_never_hashed_witness :
  @find_duplicates poly_hash map_order tree_fs
    [mkFileInfo "r/a.txt" 5 ""; mkFileInfo "r/d.txt" 3 "";
     mkFileInfo "r/gone.txt" 7 ""] = (∅, []).
Proof.
  apply (@unique_sizes_are_never_hashed poly_hash map_order).
  apply (bool_decide_unpack _). vm_compute. exact I.
Defined.

(** The messages of one size bucket, and of the loop over the buckets. *)
Definition hash_failure `{StdHash} (fs : filesystem) (file : FileInfo) : list event :=
  match generate_file_hash fs (fi_path file) with
  | Ok _ => []
  | Throw e => [EvErrorProcessing (fi_path file) (what e)]
  end.

Lemma hash_bucket_events `{StdHash} fs size group :
  (hash_bucket fs size group).2 = flat_map (hash_failure fs) group.
Proof.
  unfold hash_bucket.
  induction group as [|f group IH] using rev_ind; [done|].
  rewrite fold_left_app, flat_map_app. simpl. rewrite app_nil_r, <-IH.
  unfold hash_step at 1, hash_failure.
  destruct (generate_file_hash fs (fi_path f)); simpl; [|done].
  by rewrite app_nil_r.
Qed.

Lemma fold_bucket_step_events `{StdHash} `{UnorderedIter} fs l : ∀ acc,
  (fold_left (bucket_step fs) l acc).2 =
  acc.2 ++ flat_map (λ entry : N * list FileInfo,
             if decide (1 < length entry.2)
             then flat_map (hash_failure fs) entry.2 else []) l.
Proof.
  induction l as [|entry l IH]; intros acc; simpl; [by rewrite app_nil_r|].
  rewrite IH. unfold bucket_step. case_decide; simpl.
  - by rewrite hash_bucket_events, app_assoc.
  - done.
Qed.

(** X4: the messages of [find_duplicates] are the failures to open a file
    that shares its size with another file of the catalog, each with the
    path in its text; a file of a size of its own is never opened, and a
    file that was opened raises no message. *)
Theorem unreadable_files_reported `{StdHash} `{UnorderedIter}
    (fs : filesystem) (files : list FileInfo) (ev : event) :
  ev ∈ (find_duplicates fs files).2 ↔
  ∃ f, f ∈ files ∧ 1 < length (bucket_of files (fi_size f)) ∧
       read_file fs (fi_path f) = None ∧
       ev = EvErrorProcessing (fi_path f) ("Cannot open file: " +:+ fi_path f).
Proof.
  unfold find_duplicates. rewrite fold_bucket_step_events. simpl.
  rewrite elem_of_flat_map. split.
  - intros ([size bucket] & Hin%iterate_elem_of & Hev).
    rewrite group_by_size_lookup in Hin. apply nonempty_Some in Hin as [-> _].
    simpl in Hev. case_decide as Hlen; [|by inversion Hev].
    apply elem_of_flat_map in Hev as (f & [Hsize Hf]%list_elem_of_filter & Hev).
    exists f. subst size. split; [done|]. split; [done|].
    unfold hash_failure, generate_file_hash in Hev.
    destruct (read_file fs (fi_path f)); [by inversion Hev|].
    by apply list_elem_of_singleton in Hev.
  - intros (f & Hf & Hlen & Hread & ->).
    exists (fi_size f, bucket_of files (fi_size f)). split.
    + apply iterate_elem_of. rewrite group_by_size_lookup.
      by destruct (bucket_of files (fi_size f)); [simpl in Hlen; lia|].
    + simpl. rewrite decide_True by done. apply elem_of_flat_map.
      exists f. split; [by apply list_elem_of_filter|].
      unfold hash_failure, generate_file_hash. rewrite Hread. simpl. left.
Qed.

(** X5: every member of a group is a file that could be opened; it carries
    the key of its group as its hash, and that key is the digest of what the
    file holds. *)
Theorem group_members_are_read `{StdHash} `{UnorderedIter}
    (fs : filesystem) (files : list FileInfo) (hash : string)
    (g : list FileInfo) (m : FileInfo) :
  (find_duplicates fs files).1 !! hash = Some g → m ∈ g →
  fi_hash m = hash ∧
  ∃ content, read_file fs (fi_path m) = Some content ∧ hash = digest content.
Proof.
  intros Hg Hm. split.
  - apply find_duplicates_sound in Hg as (size & _ & _ & ->).
    by apply elem_of_hashed_of in Hm as (f & _ & _ & ->).
  - destruct (find_duplicates_member fs files hash g (fi_path m) Hg) as [_ Hhash];
      [by apply list_elem_of_fmap_2|].
    by apply generate_file_hash_Ok.
Qed.

Lemma tree_group_found :
  (@find_duplicates poly_hash map_order tree_fs tree_catalog).1
    !! @digest poly_hash "hello" = Some tree_group.
Proof. vm_compute. reflexivity. Qed.

Lemma group_members_are_read_witness :
  fi_hash (mkFileInfo "r/a.txt" 5 (@digest poly_hash "hello")) =
    @digest poly_hash "hello" ∧
  ∃ content, read_file tree_fs "r/a.txt" = Some content ∧
             @digest poly_hash "hello" = @digest poly_hash content.
Proof.
  apply (@group_members_are_read poly_hash map_order tree_fs tree_catalog
           (@digest poly_hash "hello") tree_group
           (mkFileInfo "r/a.txt" 5 (@digest poly_hash "hello")) tree_group_found).
  right. left.
Defined.

(** X6: a group lists its members in the order in which the catalog has
    them, whatever the order in which the hash maps are walked. *)
Theorem group_keeps_discovery_order `{StdHash} `{UnorderedIter}
    (fs : filesystem) (files : list FileInfo) (hash : string) (g : list FileInfo) :
  (find_duplicates fs files).1 !! hash = Some g →
  fi_path <$> g `sublist_of` fi_path <$> files.
Proof.
  intros (size & _ & _ & ->)%find_duplicates_sound.
  unfold hashed_of. rewrite <-list_fmap_compose.
  apply (fmap_sublist fi_path). etrans; apply sublist_filter.
Qed.

Lemma group_keeps_discovery_order_witness :
  fi_path <$> tree_group `sublist_of` fi_path <$> tree_catalog.
Proof.
  exact (@group_keeps_discovery_order poly_hash reverse_order tree_fs tree_catalog
           (@digest poly_hash "hello") tree_group ltac:(vm_compute; reflexivity)).
Defined.

(** X7: no path is a member of two groups, and where the catalog has no
    path twice no group has. *)
Theorem groups_are_disjoint `{StdHash} `{UnorderedIter}
    (fs : filesystem) (files : list FileInfo) (h1 h2 : string)
    (g1 g2 : list FileInfo) :
  (find_duplicates fs files).1 !! h1 = Some g1 →
  (find_duplicates fs files).1 !! h2 = Some g2 →
  (∀ p, p ∈ fi_path <$> g1 → p ∈ fi_path <$> g2 → h1 = h2) ∧
  (NoDup (fi_path <$> files) → NoDup (fi_path <$> g1)).
Proof.
  intros Hg1 Hg2. split.
  - intros p Hp1 Hp2.
    destruct (find_duplicates_member _ _ _ _ _ Hg1 Hp1) as [_ Hh1].
    destruct (find_duplicates_member _ _ _ _ _ Hg2 Hp2) as [_ Hh2].
    congruence.
  - intros Hnodup. by eapply find_duplicates_group_NoDup.
Qed.

Lemma groups_are_disjoint_witness :
  (∀ p, p ∈ fi_path <$> tree_group →
     p ∈ ["r/d.txt"; "r/e.txt"] → @digest poly_hash "hello" = @digest poly_hash "hey") ∧
  (NoDup (fi_path <$> tree_catalog) → NoDup (fi_path <$> tree_group)).
Proof.
  exact (@groups_are_disjoint poly_hash map_order tree_fs tree_catalog
           (@digest poly_hash "hello") (@digest poly_hash "hey") tree_group
           [mkFileInfo "r/d.txt" 3 (@digest poly_hash "hey");
            mkFileInfo "r/e.txt" 3 (@digest poly_hash "hey")]
           tree_group_found ltac:(vm_compute; reflexivity)).
Defined.

(** Two paths are reported as duplicates of each other. *)
Definition grouped `{StdHash} `{UnorderedIter} (fs : filesystem)
    (files : list FileInfo) (p1 p2 : string) : Prop :=
  ∃ hash g, (find_duplicates fs files).1 !! hash = Some g ∧
            p1 ∈ fi_path <$> g ∧ p2 ∈ fi_path <$> g.

Lemma two_members_long {A} (l : list A) (x y : A) :
  x ∈ l → y ∈ l → x ≠ y → 1 < length l.
Proof.
  destruct l as [|a [|b l]]; simpl; [by inversion 1| |lia].
  intros ->%list_elem_of_singleton ->%list_elem_of_singleton. done.
Qed.

(** X8: where the recorded sizes are the lengths of the contents, two
    different paths of the catalog are reported as duplicates of each other
    exactly when both files can be opened and their contents have the same
    length and the same [std::hash] value.  Files of equal content are always
    found; files of different content are taken for duplicates when
    [std::hash] does not tell them apart. *)
Theorem grouped_iff `{StdHash} `{UnorderedIter}
    (fs : filesystem) (files : list FileInfo) (p1 p2 : string) :
  sizes_match fs files →
  p1 ∈ fi_path <$> files → p2 ∈ fi_path <$> files → p1 ≠ p2 →
  grouped fs files p1 p2 ↔
  ∃ c1 c2, read_file fs p1 = Some c1 ∧ read_file fs p2 = Some c2 ∧
           String.length c1 = String.length c2 ∧ std_hash c1 = std_hash c2.
Proof.
  intros Hsizes Hp1 Hp2 Hne. split.
  - intros (hash & g & Hg & Hm1 & Hm2).
    destruct (find_duplicates_member _ _ _ _ _ Hg Hm1) as [_ Hh1].
    destruct (find_duplicates_member _ _ _ _ _ Hg Hm2) as [_ Hh2].
    apply generate_file_hash_Ok in Hh1 as (c1 & Hc1 & Hd1).
    apply generate_file_hash_Ok in Hh2 as (c2 & Hc2 & Hd2).
    exists c1, c2. split; [done|]. split; [done|].
    assert (digest c1 = digest c2) as Heq by congruence.
    pose proof (digest_length _ _ Heq) as Hlen. split; [done|].
    unfold digest in Heq. rewrite Hlen in Heq.
    by do 2 apply (inj (String.app _)) in Heq; apply (inj pretty) in Heq.
  - intros (c1 & c2 & Hc1 & Hc2 & Hlen & Hhash).
    apply list_elem_of_fmap in Hp1 as (f1 & -> & Hf1).
    apply list_elem_of_fmap in Hp2 as (f2 & -> & Hf2).
    assert (digest c2 = digest c1) as Heq by (unfold digest; by rewrite Hlen, Hhash).
    assert (f1 ∈ digest_class fs files (digest c1)) as Hcls1.
    { apply list_elem_of_filter. split; [|done].
      unfold generate_file_hash. by rewrite Hc1. }
    assert (f2 ∈ digest_class fs files (digest c1)) as Hcls2.
    { apply list_elem_of_filter. split; [|done].
      unfold generate_file_hash. by rewrite Hc2, Heq. }
    exists (digest c1), ((λ f, mkFileInfo (fi_path f) (fi_size f) (digest c1)) <$>
                           digest_class fs files (digest c1)).
    split.
    + rewrite find_duplicates_lookup by done. apply decide_True.
      apply (two_members_long _ f1 f2); [done..|congruence].
    + rewrite <-list_fmap_compose. split; by apply (list_elem_of_fmap_2 fi_path).
Qed.

Lemma grouped_iff_witness :
  @grouped poly_hash map_order tree_fs tree_catalog "r/d.txt" "r/e.txt".
Proof.
  apply (@grouped_iff poly_hash map_order tree_fs tree_catalog "r/d.txt" "r/e.txt").
  - exact tree_sizes_match.
  - vm_compute. do 3 right. left.
  - vm_compute. do 4 right. left.
  - done.
  - exists "hey", "hey". by repeat split.
Defined.

(** ** handle_duplicates *)

(** X9: in delete mode a removal that is refused leaves the file where it
    is and is reported on [std::cerr]; otherwise the path is gone and is
    reported as deleted, whether or not [fs::remove] found a file there.  In
    both cases the loop goes on with the next duplicate. *)
Theorem delete_partial_failure (w : World) (original it : string) (st : state) :
  ∃ st',
    process_duplicate w "--delete" original it st = (Ok tt, st') ∧
    (∀ rest,
       for_each (process_duplicate w "--delete" original) (it :: rest) st =
       for_each (process_duplicate w "--delete" original) rest st') ∧
    match w_remove_error w it with
    | Some msg =>
        st' = mkState (st_fs st)
                (st_out st ++ [EvDuplicate it; EvDeleteFailed msg])
    | None =>
        st' = mkState (delete it (st_fs st))
                (st_out st ++ [EvDuplicate it; EvDeleted it])
    end.
Proof.
  assert (∃ st', process_duplicate w "--delete" original it st = (Ok tt, st') ∧
    match w_remove_error w it with
    | Some msg =>
        st' = mkState (st_fs st)
                (st_out st ++ [EvDuplicate it; EvDeleteFailed msg])
    | None =>
        st' = mkState (delete it (st_fs st))
                (st_out st ++ [EvDuplicate it; EvDeleted it])
    end) as (st' & Hrun & Hcases).
  { unfold process_duplicate, bind, emit, catch_filesystem_error, fs_remove, ret.
    destruct st as [fs out]. simpl.
    destruct (w_remove_error w it) as [msg|]; simpl;
      (eexists; split; [done|]; by rewrite <-app_assoc). }
  exists st'. split; [done|]. split; [|done].
  intros rest. by rewrite for_each_cons, Hrun.
Qed.

(** What the path of a duplicate names after the action went through:
    nothing in delete mode, what the original names in hardlink mode, and
    what it named before otherwise. *)
Definition after_action (action : string) (fs : filesystem)
    (original p : string) : option dentry :=
  if decide (action = "--delete") then None
  else if decide (action = "--hardlink") then fs !! original
  else fs !! p.

(** No removal is refused, and in hardlink mode no link. *)
Definition unhindered (w : World) (action : string) : Prop :=
  (∀ p, w_remove_error w p = None) ∧
  (action = "--hardlink" → ∀ target link, w_link_error w target link = None).

Lemma process_duplicate_unhindered w action original it st :
  unhindered w action → original ≠ it → is_Some (st_fs st !! original) →
  ∃ fs' evs,
    process_duplicate w action original it st =
      (Ok tt, mkState fs' (st_out st ++ evs)) ∧
    (∀ p, p ≠ it → fs' !! p = st_fs st !! p) ∧
    fs' !! it = after_action action (st_fs st) original it.
Proof.
  intros [Hremove Hlink] Hne [nd Hnd].
  unfold process_duplicate, after_action, bind, emit, catch_filesystem_error,
    fs_remove, create_hard_link, ret.
  destruct st as [fs out]. simpl in *. rewrite Hremove.
  destruct (decide (action = "--delete")) as [->|Hdelete]; simpl.
  { eexists _, _. split; [by rewrite <-app_assoc|].
    split; [intros; by rewrite lookup_delete_ne|by rewrite lookup_delete_eq]. }
  destruct (decide (action = "--hardlink")) as [->|Hhardlink]; simpl.
  - rewrite Hlink by done. rewrite lookup_delete_ne, Hnd, lookup_delete_eq by done.
    simpl. eexists _, _. split; [by rewrite <-!app_assoc|].
    split; [|by rewrite lookup_insert_eq].
    intros p Hp. by rewrite lookup_insert_ne, lookup_delete_ne.
  - by eexists _, _.
Qed.

Lemma for_each_unhindered w action original rest : ∀ st,
  unhindered w action → original ∉ rest → is_Some (st_fs st !! original) →
  ∃ fs' evs,
    for_each (process_duplicate w action original) rest st =
      (Ok tt, mkState fs' (st_out st ++ evs)) ∧
    (∀ p, p ∉ rest → fs' !! p = st_fs st !! p) ∧
    (∀ p, p ∈ rest → fs' !! p = after_action action (st_fs st) original p).
Proof.
  induction rest as [|it rest IH]; intros st Hw Hrest Horiginal.
  - exists (st_fs st), []. rewrite app_nil_r. destruct st.
    split_and!; [done|done|by inversion 1].
  - apply not_elem_of_cons in Hrest as [Hne Hrest].
    destruct (process_duplicate_unhindered w action original it st Hw Hne Horiginal)
      as (fs1 & evs1 & Hrun1 & Hframe1 & Hit).
    destruct (IH (mkState fs1 (st_out st ++ evs1)) Hw Hrest)
      as (fs2 & evs2 & Hrun2 & Hframe2 & Hrest2).
    { simpl. by rewrite Hframe1. }
    exists fs2, (evs1 ++ evs2). rewrite for_each_cons, Hrun1, Hrun2. simpl in *.
    assert (∀ p, fs1 !! p = if decide (p = it)
                            then after_action action (st_fs st) original it
                            else st_fs st !! p) as Hfs1.
    { intros p. case_decide as Hp; [by subst p|by apply Hframe1]. }
    assert (∀ p, after_action action fs1 original p =
                 if decide (p = it) then fs1 !! it
                 else after_action action (st_fs st) original p) as Hafter.
    { intros p. unfold after_action. rewrite !Hfs1.
      rewrite (decide_False (P := original = it)) by done.
      rewrite (decide_True (P := it = it)) by done. unfold after_action.
      by repeat case_decide. }
    split_and!.
    + by rewrite <-app_assoc.
    + intros p [Hp1 Hp2]%not_elem_of_cons. by rewrite Hframe2, Hframe1.
    + intros p Hp. destruct (decide (p ∈ rest)) as [Hin|Hout].
      * rewrite Hrest2, Hafter by done. case_decide as Heq; [|done].
        subst p. by rewrite Hit.
      * apply elem_of_cons in Hp as [->|?]; [|done]. by rewrite Hframe2, Hit.
Qed.

Lemma last_write_time_is_Some w fs p t :
  last_write_time w fs p = Ok t → is_Some (fs !! p).
Proof.
  unfold last_write_time. destruct (resolve fs p) as [|nd] eqn:Hnd; [done|].
  intros _. by eapply resolve_is_Some.
Qed.

(** What a group is in the end: one member, than which none was older, is
    the name it was, and every other member is what the action makes of
    it. *)
Definition settled (w : World) (action : string) (before after : filesystem)
    (g : list FileInfo) : Prop :=
  ∃ original,
    original ∈ fi_path <$> g ∧
    (∀ p, p ∈ fi_path <$> g → (mtime_of w before original ≤ mtime_of w before p)%Z) ∧
    after !! original = before !! original ∧
    ∀ p, p ∈ fi_path <$> g → p ≠ original →
      after !! p = after_action action before original p.

Lemma settled_ext w action before1 after1 before2 after2 g :
  (∀ p, p ∈ fi_path <$> g →
     before1 !! p = before2 !! p ∧ resolve before1 p = resolve before2 p) →
  (∀ p, p ∈ fi_path <$> g → after1 !! p = after2 !! p) →
  settled w action before1 after1 g → settled w action before2 after2 g.
Proof.
  intros Hbefore Hafter (original & Hin & Hold & Hkept & Hrest).
  assert (∀ p, p ∈ fi_path <$> g → mtime_of w before1 p = mtime_of w before2 p) as Hmtime.
  { intros p Hp. unfold mtime_of.
    by rewrite (last_write_time_resolve w before1 before2 p (proj2 (Hbefore p Hp))). }
  exists original. split_and!; [done| | |].
  - intros p Hp. rewrite <-!Hmtime by done. by apply Hold.
  - by rewrite <-Hafter, <-(proj1 (Hbefore original Hin)).
  - intros p Hp Hne. rewrite <-Hafter, Hrest by done.
    unfold after_action.
    by rewrite (proj1 (Hbefore original Hin)), (proj1 (Hbefore p Hp)).
Qed.

Lemma handle_group_unhindered `{!StdSortSpec sorter} w action hash files st :
  unhindered w action → files ≠ [] → NoDup (fi_path <$> files) →
  mtimes_readable w (st_fs st) files →
  ∃ fs' evs,
    handle_group w action (hash, files) st =
      (Ok tt, mkState fs' (st_out st ++ evs)) ∧
    (∀ p, p ∉ fi_path <$> files → fs' !! p = st_fs st !! p) ∧
    settled w action (st_fs st) fs' files.
Proof.
  intros Hw Hfiles Hnodup Hread.
  destruct (handle_group_sorted w action hash files st Hfiles Hread)
    as (original & rest & _ & Hperm & Hold & ->).
  rewrite <-Hperm in Hnodup. apply NoDup_cons in Hnodup as [Horiginal _].
  assert (is_Some (st_fs st !! original)) as Hthere.
  { assert (original ∈ fi_path <$> files) as (f & -> & Hf)%list_elem_of_fmap
      by (rewrite <-Hperm; left).
    destruct (Hread f Hf) as [t Ht]. by eapply last_write_time_is_Some. }
  destruct (for_each_unhindered w action original rest
              (mkState (st_fs st)
                 (st_out st ++ [EvGroup (length files) hash; EvOriginal original]))
              Hw Horiginal Hthere)
    as (fs' & evs & Hrun & Hframe & Hrest).
  exists fs', ([EvGroup (length files) hash; EvOriginal original] ++ evs).
  rewrite Hrun. simpl in *. split; [by rewrite <-app_assoc|]. split.
  - intros p Hp. apply Hframe. intros Hin. apply Hp. rewrite <-Hperm. by right.
  - exists original. split_and!.
    + rewrite <-Hperm. left.
    + done.
    + by apply Hframe.
    + intros p Hp Hne. apply Hrest. rewrite <-Hperm in Hp.
      by apply elem_of_cons in Hp as [->|?].
Qed.

Lemma handle_groups_unhindered `{!StdSortSpec sorter} w action groups :
  unhindered w action →
  Forall (λ g : string * list FileInfo, g.2 ≠ []) groups →
  NoDup (all_paths groups) →
  ∀ st,
    separated (st_fs st) groups →
    (∀ p, p ∈ all_paths groups → ∃ t, last_write_time w (st_fs st) p = Ok t) →
    ∃ fs' evs,
      for_each (handle_group w action) groups st =
        (Ok tt, mkState fs' (st_out st ++ evs)) ∧
      (∀ p, p ∉ all_paths groups → fs' !! p = st_fs st !! p) ∧
      Forall (λ g, settled w action (st_fs st) fs' g.2) groups.
Proof.
  intros Hw. induction groups as [|[hash files] groups IH];
    intros Hlong Hnodup st Hsep Hread.
  - exists (st_fs st), []. rewrite app_nil_r. destruct st. by split_and!.
  - apply Forall_cons in Hlong as [Hfiles Hlong].
    change (all_paths ((hash, files) :: groups))
      with ((fi_path <$> files) ++ all_paths groups) in *.
    apply NoDup_app in Hnodup as (Hnodup1 & Hdisj & Hnodup2).
    destruct (handle_group_unhindered w action hash files st Hw Hfiles Hnodup1)
      as (fs1 & evs1 & Hrun1 & Hframe1 & Hsettled1).
    { intros f Hf. apply Hread, elem_of_app. left. by apply list_elem_of_fmap_2. }
    destruct (later_groups_frame w (st_fs st) fs1 (hash, files) groups
                (fi_path <$> files) Hframe1) as [Hsep1 Hlater]; [done..|].
    destruct (IH Hlong Hnodup2 (mkState fs1 (st_out st ++ evs1)) Hsep1)
      as (fs2 & evs2 & Hrun2 & Hframe2 & Hsettled2).
    { intros p Hp. cbn [st_fs]. destruct (Hlater p Hp) as (_ & _ & ->).
      apply Hread, elem_of_app. by right. }
    exists fs2, (evs1 ++ evs2). rewrite for_each_cons, Hrun1, Hrun2. simpl in *.
    split; [by rewrite <-app_assoc|]. split.
    + intros p [Hp1 Hp2]%not_elem_of_app. by rewrite Hframe2, Hframe1.
    + apply Forall_cons. split.
      * simpl. eapply settled_ext; [done| |exact Hsettled1].
        intros p Hp. symmetry. apply Hframe2. by apply Hdisj.
      * apply Forall_forall. intros g Hg.
        pose proof (proj1 (Forall_forall _ _) Hsettled2 g Hg) as Hsettled.
        eapply settled_ext; [|done|exact Hsettled].
        intros p Hp. destruct (Hlater p) as (? & ? & _); [|done].
        apply elem_of_flat_map. by exists g.
Qed.

(** A path that leads through another reads what that one reads. *)
Lemma reaches_same_hash `{StdHash} fs p q hash :
  reaches fs p q → generate_file_hash fs p = Ok hash →
  generate_file_hash fs q = Ok hash.
Proof.
  intros Hreach (c & Hread & ->)%generate_file_hash_Ok.
  apply read_file_resolve in Hread as (nd & Hnd & Hc).
  apply generate_file_hash_Ok. exists c. split; [|done].
  apply read_file_resolve. exists nd. split; [|done].
  by apply (follow_reaches fs p q nd Hreach).
Qed.

(** A run in which nothing hinders the action: the root is a directory,
    the walker yields every path once, every modification time can be read
    and no removal and no link is refused. *)
Lemma main_unhindered `{StdHash} `{!StdSortSpec sorter} `{UnorderedIter}
    w prog dir args fs :
  valid_root w dir → unhindered w (action_of args) →
  NoDup (fi_path <$> (find_files w dir).1) →
  (∀ p nd, resolve fs p = inr nd → ∃ t, nd_mtime nd = FsOk t) →
  let run := main w (prog :: dir :: args) (mkState fs []) in
  let groups := iterate (find_duplicates fs (find_files w dir).1).1 in
  run.1 = Exit 0 ∧
  (∀ p, p ∉ all_paths groups → st_fs run.2 !! p = fs !! p) ∧
  ∀ hash g, (find_duplicates fs (find_files w dir).1).1 !! hash = Some g →
    settled w (action_of args) fs (st_fs run.2) g.
Proof.
  intros Hroot Hw Hnodup Hmtime run groups. subst run.
  rewrite main_valid_root by done. cbv zeta. cbn [st_fs st_out].
  case_decide as Hempty.
  { cbn [fst snd st_fs]. split; [done|]. split; [done|].
    intros hash g. by rewrite Hempty, lookup_empty. }
  unfold handle_duplicates. fold groups.
  destruct (handle_groups_unhindered w (action_of args) groups Hw)
    with (st := mkState fs (([] ++ prelude w dir fs) ++
                  [EvFoundGroups (size (find_duplicates fs (find_files w dir).1).1)]))
    as (fs' & evs & Hrun & Hframe & Hsettled).
  - eapply Forall_impl; [apply find_duplicates_groups_long|].
    intros [hash g] Hlen. simpl in *. destruct g; [simpl in Hlen; lia|done].
  - by apply find_duplicates_paths_NoDup.
  - apply find_duplicates_separated.
  - intros p. by apply find_duplicates_paths_readable.
  - rewrite Hrun. cbn [fst snd st_fs]. split; [done|]. split; [done|].
    intros hash g Hg%iterate_elem_of.
    by apply (proj1 (Forall_forall _ _) Hsettled (hash, g)).
Qed.

(** The kept member of a group reads what it read when no other member of
    its group is on its way. *)
Lemma kept_member_resolves `{StdHash} `{UnorderedIter} fs fs' files hash g original :
  (find_duplicates fs files).1 !! hash = Some g →
  original ∈ fi_path <$> g →
  (∀ p, p ∉ all_paths (iterate (find_duplicates fs files).1) → fs' !! p = fs !! p) →
  fs' !! original = fs !! original →
  (∀ p, p ∈ fi_path <$> g → p ≠ original → ¬ reaches fs original p) →
  resolve fs' original = resolve fs original.
Proof.
  intros Hg Hin Hframe Hkept Hclear. apply follow_frame. intros q Hq.
  destruct (decide (q = original)) as [->|Hne]; [done|].
  apply Hframe. intros ([hash' g'] & Hg'%iterate_elem_of & Hq')%elem_of_flat_map.
  cbn [snd] in Hq'.
  destruct (find_duplicates_member _ _ _ _ _ Hg Hin) as [_ Hh].
  destruct (find_duplicates_member _ _ _ _ _ Hg' Hq') as [_ Hh'].
  pose proof (reaches_same_hash fs original q hash Hq Hh) as Hhq.
  assert (hash' = hash) as -> by congruence.
  assert (g' = g) as -> by congruence.
  by apply (Hclear q).
Qed.

(** X10: a run in delete mode that nothing hinders (the root is a
    directory, the walker yields every path once, every modification time can
    be read, no removal is refused) exits with status 0 and leaves of every
    group exactly one member, than which no member was older: the name of
    that member is what it was, and every other member is gone.  The kept
    member reads the file it read when it leads through no other member of
    its group; a kept symbolic link to another member is left without its
    file. *)
Theorem delete_leaves_one_member `{StdHash} `{!StdSortSpec sorter} `{UnorderedIter}
    (w : World) (prog dir : string) (more : list string) (fs : filesystem) :
  valid_root w dir →
  (∀ p, w_remove_error w p = None) →
  NoDup (fi_path <$> (find_files w dir).1) →
  (∀ p nd, resolve fs p = inr nd → ∃ t, nd_mtime nd = FsOk t) →
  let run := main w (prog :: dir :: "--delete" :: more) (mkState fs []) in
  run.1 = Exit 0 ∧
  ∀ hash g, (find_duplicates fs (find_files w dir).1).1 !! hash = Some g →
    ∃ original,
      original ∈ fi_path <$> g ∧
      (∀ p, p ∈ fi_path <$> g → (mtime_of w fs original ≤ mtime_of w fs p)%Z) ∧
      is_Some (fs !! original) ∧
      st_fs run.2 !! original = fs !! original ∧
      (∀ p, p ∈ fi_path <$> g → p ≠ original → st_fs run.2 !! p = None) ∧
      ((∀ p, p ∈ fi_path <$> g → p ≠ original → ¬ reaches fs original p) →
       resolve (st_fs run.2) original = resolve fs original) ∧
      (∀ p, p ∈ fi_path <$> g → p ≠ original →
         fs !! original = Some (Symlink p) →
         resolve (st_fs run.2) original = inl no_such_file_or_directory).
Proof.
  intros Hroot Hremove Hnodup Hmtime run.
  destruct (main_unhindered w prog dir ("--delete" :: more) fs Hroot)
    as (Hexit & Hframe & Hgroups); [by split|done..|].
  fold run in Hframe, Hgroups.
  split; [done|]. intros hash g Hg.
  destruct (Hgroups hash g Hg) as (original & Hin & Hold & Hkept & Hrest).
  assert (∀ p, p ∈ fi_path <$> g → p ≠ original → st_fs run.2 !! p = None) as Hgone.
  { intros p Hp Hne. exact (Hrest p Hp Hne). }
  exists original. split_and!; [done..| |done|done| |].
  - apply (find_duplicates_paths_exist fs (find_files w dir).1).
    apply elem_of_flat_map. exists (hash, g). by rewrite iterate_elem_of.
  - intros Hclear. by eapply kept_member_resolves.
  - intros p Hp Hne Hlink. unfold resolve. simpl.
    by rewrite Hkept, Hlink, (Hgone p Hp Hne).
Qed.

Lemma tree_valid_root : valid_root tree_world "r".
Proof. reflexivity. Qed.

Lemma delete_leaves_one_member_witness :
  let run := @main poly_hash insertion_sort map_order alias_world
               ["dedup"; "n"; "--delete"] (mkState alias_fs []) in
  run.1 = Exit 0 ∧
  ∀ hash g,
    (@find_duplicates poly_hash map_order alias_fs (find_files alias_world "n").1).1
      !! hash = Some g →
    ∃ original,
      original ∈ fi_path <$> g ∧
      (∀ p, p ∈ fi_path <$> g →
         (mtime_of alias_world alias_fs original ≤ mtime_of alias_world alias_fs p)%Z) ∧
      is_Some (alias_fs !! original) ∧
      st_fs run.2 !! original = alias_fs !! original ∧
      (∀ p, p ∈ fi_path <$> g → p ≠ original → st_fs run.2 !! p = None) ∧
      ((∀ p, p ∈ fi_path <$> g → p ≠ original → ¬ reaches alias_fs original p) →
       resolve (st_fs run.2) original = resolve alias_fs original) ∧
      (∀ p, p ∈ fi_path <$> g → p ≠ original →
         alias_fs !! original = Some (Symlink p) →
         resolve (st_fs run.2) original = inl no_such_file_or_directory).
Proof.
  apply (@delete_leaves_one_member poly_hash insertion_sort insertion_sort_spec
           map_order alias_world "dedup" "n" [] alias_fs).
  - exact alias_valid_root.
  - reflexivity.
  - exact alias_catalog_NoDup.
  - exact alias_mtimes_readable.
Defined.

(** X11: a run in hardlink mode that nothing hinders exits with status 0,
    loses no path and adds none, and makes every member of a group a name of
    what one member, than which no member was older, named: when that member
    is a file, every member of the group is a hard link of this file and
    reads it. *)
Theorem hardlink_joins_members `{StdHash} `{!StdSortSpec sorter} `{UnorderedIter}
    (w : World) (prog dir : string) (more : list string) (fs : filesystem) :
  valid_root w dir →
  (∀ p, w_remove_error w p = None) →
  (∀ target link, w_link_error w target link = None) →
  NoDup (fi_path <$> (find_files w dir).1) →
  (∀ p nd, resolve fs p = inr nd → ∃ t, nd_mtime nd = FsOk t) →
  let run := main w (prog :: dir :: "--hardlink" :: more) (mkState fs []) in
  run.1 = Exit 0 ∧
  (∀ p, is_Some (st_fs run.2 !! p) ↔ is_Some (fs !! p)) ∧
  ∀ hash g, (find_duplicates fs (find_files w dir).1).1 !! hash = Some g →
    ∃ original entry,
      original ∈ fi_path <$> g ∧
      (∀ p, p ∈ fi_path <$> g → (mtime_of w fs original ≤ mtime_of w fs p)%Z) ∧
      fs !! original = Some entry ∧
      (∀ p, p ∈ fi_path <$> g → st_fs run.2 !! p = Some entry) ∧
      (∀ nd, entry = Regular nd →
         ∀ p, p ∈ fi_path <$> g → resolve (st_fs run.2) p = inr nd).
Proof.
  intros Hroot Hremove Hlink Hnodup Hmtime run.
  destruct (main_unhindered w prog dir ("--hardlink" :: more) fs Hroot)
    as (Hexit & Hframe & Hgroups); [by split|done..|].
  fold run in Hexit, Hframe, Hgroups.
  assert (∀ hash g, (find_duplicates fs (find_files w dir).1).1 !! hash = Some g →
    ∃ original entry,
      original ∈ fi_path <$> g ∧
      (∀ p, p ∈ fi_path <$> g → (mtime_of w fs original ≤ mtime_of w fs p)%Z) ∧
      fs !! original = Some entry ∧
      ∀ p, p ∈ fi_path <$> g → st_fs run.2 !! p = Some entry) as Hjoined.
  { intros hash g Hg.
    destruct (Hgroups hash g Hg) as (original & Hin & Hold & Hkept & Hrest).
    destruct (find_duplicates_paths_exist fs (find_files w dir).1 original)
      as [entry Hentry].
    { apply elem_of_flat_map. exists (hash, g). by rewrite iterate_elem_of. }
    exists original, entry. split_and!; [done..|].
    intros p Hp. destruct (decide (p = original)) as [->|Hne]; [congruence|].
    rewrite <-Hentry. exact (Hrest p Hp Hne). }
  split; [done|]. split.
  - intros p.
    destruct (decide (p ∈ all_paths (iterate (find_duplicates fs (find_files w dir).1).1)))
      as [Hp|Hp]; [|by rewrite Hframe].
    pose proof (find_duplicates_paths_exist _ _ _ Hp) as Hthere.
    apply elem_of_flat_map in Hp as ([hash g] & Hg%iterate_elem_of & Hp).
    destruct (Hjoined hash g Hg) as (original & entry & _ & _ & _ & Hall).
    rewrite (Hall p Hp). naive_solver.
  - intros hash g Hg.
    destruct (Hjoined hash g Hg) as (original & entry & Hin & Hold & Hentry & Hall).
    exists original, entry. split_and!; [done..|].
    intros nd -> p Hp. unfold resolve. simpl. by rewrite (Hall p Hp).
Qed.

Lemma hardlink_joins_members_witness :
  let run := @main poly_hash insertion_sort map_order alias_world
               ["dedup"; "n"; "--hardlink"] (mkState alias_fs []) in
  run.1 = Exit 0 ∧
  (∀ p, is_Some (st_fs run.2 !! p) ↔ is_Some (alias_fs !! p)) ∧
  ∀ hash g,
    (@find_duplicates poly_hash map_order alias_fs (find_files alias_world "n").1).1
      !! hash = Some g →
    ∃ original entry,
      original ∈ fi_path <$> g ∧
      (∀ p, p ∈ fi_path <$> g →
         (mtime_of alias_world alias_fs original ≤ mtime_of alias_world alias_fs p)%Z) ∧
      alias_fs !! original = Some entry ∧
      (∀ p, p ∈ fi_path <$> g → st_fs run.2 !! p = Some entry) ∧
      (∀ nd, entry = Regular nd →
         ∀ p, p ∈ fi_path <$> g → resolve (st_fs run.2) p = inr nd).
Proof.
  apply (@hardlink_joins_members poly_hash insertion_sort insertion_sort_spec
           map_order alias_world "dedup" "n" [] alias_fs).
  - exact alias_valid_root.
  - reflexivity.
  - reflexivity.
  - exact alias_catalog_NoDup.
  - exact alias_mtimes_readable.
Defined.

(** ** main *)

(** X12: a run creates nothing.  Every name there is in the end was there
    at the start; what it names, a file or a symbolic link, was named by some
    path at the start; and every file that can be read in the end was the
    file of some path at the start: the program removes names and gives them
    to what exists, whatever the arguments and whatever fails. *)
Theorem run_creates_nothing `{StdHash} `{!StdSortSpec sorter} `{UnorderedIter}
    (w : World) (argv : list string) (fs : filesystem) :
  let final := st_fs (main w argv (mkState fs [])).2 in
  (∀ p, is_Some (final !! p) → is_Some (fs !! p)) ∧
  (∀ p entry, final !! p = Some entry → ∃ q, fs !! q = Some entry) ∧
  (∀ p nd, resolve final p = inr nd → ∃ q, resolve fs q = inr nd).
Proof.
  cut (let final := st_fs (main w argv (mkState fs [])).2 in
       (∀ p, is_Some (final !! p) → is_Some (fs !! p)) ∧
       (∀ p entry, final !! p = Some entry → ∃ q, fs !! q = Some entry)).
  { intros [Hnames Hentries]. split; [done|]. split; [done|].
    intros p nd [r Hr]%follow_ends. destruct (Hentries r _ Hr) as [q Hq].
    exists q. unfold resolve. simpl. by rewrite Hq. }
  destruct argv as [|prog [|dir args]]; [simpl; eauto..|].
  destruct (decide (valid_root w dir)) as [Hvalid|Hinvalid].
  2:{ rewrite main_invalid_root by done. destruct (w_status w dir); simpl; eauto. }
  rewrite main_valid_root by done. cbv zeta. cbn [st_fs st_out].
  case_decide as Hempty; [simpl; eauto|].
  unfold handle_duplicates.
  destruct (handle_groups_run w (action_of args)
              (iterate (find_duplicates fs (find_files w dir).1).1)
              (find_duplicates_groups_long fs (find_files w dir).1)
              (mkState fs (([] ++ prelude w dir fs) ++
                 [EvFoundGroups (size (find_duplicates fs (find_files w dir).1).1)])))
    as (r & fs' & evs & originals & superseded & Hrun & Hsub & Hframe & Hnodes & _ & _).
  rewrite Hrun. cbn [st_fs st_out] in *.
  assert (st_fs (match r with
                 | Ok _ => (Exit 0, mkState fs'
                     (((([] ++ prelude w dir fs) ++
                        [EvFoundGroups (size (find_duplicates fs (find_files w dir).1).1)])
                       ++ evs)))
                 | Throw e => (Exit 1, mkState fs'
                     (((([] ++ prelude w dir fs) ++
                        [EvFoundGroups (size (find_duplicates fs (find_files w dir).1).1)])
                       ++ evs) ++ [EvError (what e)]))
                 end).2 = fs') as -> by by destruct r.
  split; [|done].
  intros p Hp. destruct (decide (p ∈ superseded)) as [Hin|Hout];
    [|by rewrite <-Hframe].
  apply (find_duplicates_paths_exist fs (find_files w dir).1).
  eapply elem_of_submseteq; [|exact Hsub]. apply elem_of_app. by right.
Qed.

Lemma run_creates_nothing_witness :
  let final := st_fs (@main poly_hash insertion_sort map_order refused_link_world
                        ["dedup"; "r"; "--hardlink"] (mkState tree_fs [])).2 in
  (∀ p, is_Some (final !! p) → is_Some (tree_fs !! p)) ∧
  (∀ p entry, final !! p = Some entry → ∃ q, tree_fs !! q = Some entry) ∧
  (∀ p nd, resolve final p = inr nd → ∃ q, resolve tree_fs q = inr nd).
Proof.
  exact (@run_creates_nothing poly_hash insertion_sort insertion_sort_spec map_order
           refused_link_world ["dedup"; "r"; "--hardlink"] tree_fs).
Defined.

(** What the loop over the groups prints when every member of every group
    is there with a readable modification time and no path occurs twice:
    the header of every group, one of its members as the original and every
    other member as a duplicate. *)
Definition reported (evs : list event) (g : string * list FileInfo) : Prop :=
  EvGroup (length g.2) g.1 ∈ evs ∧
  ∃ original, original ∈ fi_path <$> g.2 ∧ EvOriginal original ∈ evs ∧
    ∀ p, p ∈ fi_path <$> g.2 → p ≠ original → EvDuplicate p ∈ evs.

Lemma reported_mono evs1 evs2 g :
  (∀ ev, ev ∈ evs1 → ev ∈ evs2) → reported evs1 g → reported evs2 g.
Proof.
  intros Hsub (Hgroup & original & Hin & Horiginal & Hrest).
  split; [by apply Hsub|]. exists original. split_and!; [done|by apply Hsub|].
  intros p Hp Hne. by apply Hsub, Hrest.
Qed.

Lemma handle_groups_report `{!StdSortSpec sorter} w action groups :
  Forall (λ g, 1 < length g.2) groups →
  ∀ st,
    separated (st_fs st) groups →
    (∀ p, p ∈ all_paths groups → ∃ t, last_write_time w (st_fs st) p = Ok t) →
    ∃ fs' evs,
      for_each (handle_group w action) groups st =
        (Ok tt, mkState fs' (st_out st ++ evs)) ∧
      Forall (reported evs) groups.
Proof.
  induction 1 as [|[hash files] groups Hlen _ IH]; intros st Hsep Hread.
  { exists (st_fs st), []. rewrite app_nil_r. by destruct st. }
  simpl in Hlen.
  change (all_paths ((hash, files) :: groups))
    with ((fi_path <$> files) ++ all_paths groups) in *.
  rewrite for_each_cons.
  destruct (handle_group_sorted w action hash files st)
    as (original & rest & _ & Hperm & _ & ->);
    [intros ->; simpl in Hlen; lia| |].
  { intros f Hf. apply Hread, elem_of_app. left. by apply list_elem_of_fmap_2. }
  destruct (for_each_process_run w action original rest
              (mkState (st_fs st)
                 (st_out st ++ [EvGroup (length files) hash; EvOriginal original])))
    as (fs1 & evs1 & -> & Hframe1 & _ & _ & Hdup1).
  cbn [st_fs st_out] in *.
  destruct (later_groups_frame w (st_fs st) fs1 (hash, files) groups rest Hframe1)
    as [Hsep1 Hlater]; [|done|].
  { intros q Hq. cbn [snd]. rewrite <-Hperm. by right. }
  destruct (IH (mkState fs1
              ((st_out st ++ [EvGroup (length files) hash; EvOriginal original])
               ++ evs1)) Hsep1)
    as (fs2 & evs2 & -> & Hreported).
  { intros p Hp. cbn [st_fs]. destruct (Hlater p Hp) as (_ & _ & ->).
    apply Hread, elem_of_app. by right. }
  cbn [st_fs st_out].
  exists fs2, ([EvGroup (length files) hash; EvOriginal original] ++ evs1 ++ evs2).
  split; [by rewrite !app_assoc|]. apply Forall_cons. split.
  - split; [left|]. exists original. split_and!.
    + rewrite <-Hperm. left.
    + right. left.
    + intros p Hp Hne. rewrite <-Hperm in Hp.
      apply elem_of_cons in Hp as [->|Hp]; [done|].
      do 2 right. apply elem_of_app. left. by apply Hdup1.
  - eapply Forall_impl; [exact Hreported|]. intros g. apply reported_mono.
    intros ev Hev. do 2 right. apply elem_of_app. by right.
Qed.

(** X15: where the root is a directory, the walker yields every path once
    and every modification time can be read, the run prints every group that
    was found, with its size and its key, announces exactly one of its
    members as the original and every other member as a duplicate, whatever
    the action and whatever removal or link is refused. *)
Theorem every_group_is_reported `{StdHash} `{!StdSortSpec sorter} `{UnorderedIter}
    (w : World) (prog dir : string) (args : list string) (fs : filesystem) :
  valid_root w dir →
  NoDup (fi_path <$> (find_files w dir).1) →
  (∀ p nd, resolve fs p = inr nd → ∃ t, nd_mtime nd = FsOk t) →
  let out := st_out (main w (prog :: dir :: args) (mkState fs [])).2 in
  ∀ hash g, (find_duplicates fs (find_files w dir).1).1 !! hash = Some g →
    EvGroup (length g) hash ∈ out ∧
    ∃ original, original ∈ fi_path <$> g ∧
      ∀ p, p ∈ fi_path <$> g →
        (EvOriginal p ∈ out ↔ p = original) ∧
        (EvDuplicate p ∈ out ↔ p ≠ original).
Proof.
  intros Hroot Hnodup Hmtime out hash g Hg.
  assert (reported out (hash, g)) as (Hgroup & original & Hin & Horiginal & Hrest).
  { subst out. rewrite main_valid_root by done. cbv zeta. cbn [st_fs st_out].
    rewrite decide_False by (intros Hempty; by rewrite Hempty, lookup_empty in Hg).
    unfold handle_duplicates.
    destruct (handle_groups_report w (action_of args)
                (iterate (find_duplicates fs (find_files w dir).1).1)
                (find_duplicates_groups_long fs (find_files w dir).1)
                (mkState fs (([] ++ prelude w dir fs) ++
                   [EvFoundGroups (size (find_duplicates fs (find_files w dir).1).1)])))
      as (fs' & evs & -> & Hreported);
      [apply find_duplicates_separated
      |intros p; by apply find_duplicates_paths_readable|].
    cbn [snd st_fs st_out].
    eapply reported_mono;
      [|apply (proj1 (Forall_forall _ _) Hreported (hash, g)); by apply iterate_elem_of].
    intros ev Hev. apply elem_of_app. by right. }
  destruct (main_run w (prog :: dir :: args) fs)
    as (originals & superseded & Hdistinct & Horig & Hdup & _).
  { by intros ? [= <-]. }
  fold out in Horig, Hdup.
  apply NoDup_app in Hdistinct as (_ & Hdisj & _).
  split; [done|]. exists original. split; [done|]. intros p Hp. split; split.
  - intros Ho. destruct (decide (p = original)) as [|Hne]; [done|].
    destruct (Hdisj p); [by apply Horig|by apply Hdup, Hrest].
  - by intros ->.
  - intros Hd ->. destruct (Hdisj original); [by apply Horig|by apply Hdup].
  - by apply Hrest.
Qed.

Lemma every_group_is_reported_witness :
  let out := st_out (@main poly_hash insertion_sort map_order refused_link_world
                       ["dedup"; "r"; "--hardlink"] (mkState tree_fs [])).2 in
  EvGroup (length tree_group) (@digest poly_hash "hello") ∈ out ∧
  ∃ original, original ∈ fi_path <$> tree_group ∧
    ∀ p, p ∈ fi_path <$> tree_group →
      (EvOriginal p ∈ out ↔ p = original) ∧
      (EvDuplicate p ∈ out ↔ p ≠ original).
Proof.
  exact (@every_group_is_reported poly_hash insertion_sort insertion_sort_spec
           map_order refused_link_world "dedup" "r" ["--hardlink"] tree_fs
           tree_valid_root tree_catalog_NoDup tree_mtimes_readable
           (@digest poly_hash "hello") tree_group tree_group_found).
Defined.

(** A root that is a directory and cannot be opened. *)
Definition closed_root_world : World :=
  {| w_status p := FsOk (if decide (p = "r") then ft_directory else ft_not_found);
     w_tree p := FsError "Permission denied";
     w_remove_error _ := None;
     w_link_error _ _ := None;
     w_what := libstdcxx_what |}.

Lemma find_duplicates_nil `{StdHash} `{UnorderedIter} fs :
  find_duplicates fs [] = (∅, []).
Proof.
  unfold find_duplicates, group_by_size. simpl.
  assert (iterate (∅ : gmap N (list FileInfo)) = []) as ->; [|done].
  apply Permutation_nil_r. by rewrite iterate_perm, map_to_list_empty.
Qed.

(** X14: when the root is a directory that cannot be opened, the failure
    is reported on [std::cerr] and the run goes on with an empty catalog: it
    finds no files and no duplicates, changes nothing and exits with status
    0, whatever the action. *)
Theorem unopenable_root_reports_no_duplicates `{StdHash} `{StdSort} `{UnorderedIter}
    (w : World) (prog dir : string) (args : list string) (st : state) (msg : string) :
  valid_root w dir → w_tree w dir = FsError msg →
  main w (prog :: dir :: args) st =
    (Exit 0,
     mkState (st_fs st)
       (st_out st ++ [EvScanning dir; EvFilesystemError msg; EvFoundFiles 0;
                      EvLooking; EvNoDuplicates])).
Proof.
  intros Hroot Htree. rewrite main_valid_root by done. cbv zeta.
  unfold prelude, find_files. simpl. rewrite Htree. simpl.
  rewrite find_duplicates_nil. simpl. rewrite decide_True by done.
  by rewrite <-app_assoc.
Qed.

Lemma unopenable_root_reports_no_duplicates_witness :
  @main poly_hash libstdcxx_sort map_order closed_root_world
    ["dedup"; "r"; "--delete"] (mkState tree_fs []) =
  (Exit 0,
   mkState tree_fs
     ([] ++ [EvScanning "r"; EvFilesystemError "Permission denied"; EvFoundFiles 0;
             EvLooking; EvNoDuplicates])).
Proof.
  apply (@unopenable_root_reports_no_duplicates poly_hash libstdcxx_sort map_order
           closed_root_world "dedup" "r" ["--delete"] (mkState tree_fs [])
           "Permission denied"); reflexivity.
Defined.
